(** * SSH awareness of joy ([src/ssh.c]): a shallow embedding and its properties

    The C functions of [ssh.c] are rendered as Rocq functions over explicit
    memory regions.  A pointer is the list of bytes that may be accessed
    through it, an access outside that list is a [Fault] (the behaviour C
    leaves undefined), and [unsigned int] values are integers in [Z] whose
    wrap-around is written out with [u32]. *)

From Stdlib Require Import ZArith Lia List Strings.Byte Strings.String.
From stdpp Require Import base tactics option list.
Import ListNotations.
Local Open Scope Z_scope.

(** ** Bytes and machine integers *)

Abbreviation byte := Byte.byte.

(** The value of a byte read as an [unsigned char]. *)
Definition byte_val (b : byte) : Z := Z.of_N (Byte.to_N b).

(** Conversion of an integer to [unsigned int] / [uint32_t]. *)
Definition u32 (z : Z) : Z := z mod 2 ^ 32.

(** [isprint] of <ctype.h> in the "C" locale: the codes 0x20 .. 0x7e.  A byte
    above 0x7f, negative when read through [const char *], is not printable. *)
Definition isprint (c : byte) : bool :=
  (32 <=? byte_val c) && (byte_val c <=? 126).

(** ** Outcomes of a call *)

Inductive fault : Type :=
  | OutOfBoundsRead
  | OutOfBoundsWrite
  | IndeterminateRead.

Inductive result (A : Type) : Type :=
  | Ok (a : A)
  | Fault (f : fault).
Arguments Ok {A} a.
Arguments Fault {A} f.

#[export] Instance result_ret : MRet result := fun A a => Ok a.
#[export] Instance result_bind : MBind result := fun A B k m =>
  match m with
  | Ok a => k a
  | Fault f => Fault f
  end.

(** ** Memory regions *)

(** [*(p + off)] for a pointer [p] into a readable region. *)
Definition load (p : list byte) (off : nat) : result byte :=
  match p !! off with
  | Some b => Ok b
  | None => Fault OutOfBoundsRead
  end.

(** [buf[i] = b] for an array [buf]. *)
Definition store (buf : list byte) (i : nat) (b : byte) : result (list byte) :=
  if decide (i < length buf)%nat then Ok (<[i:=b]> buf)
  else Fault OutOfBoundsWrite.

(** The network-order value of four bytes. *)
Definition be32 (b0 b1 b2 b3 : byte) : Z :=
  ((byte_val b0 * 256 + byte_val b1) * 256 + byte_val b2) * 256 + byte_val b3.

(** [ntohl(*(uint32_t *)(p + off))]: the host-order load followed by [ntohl]
    yields the big-endian value of the four bytes on either byte order. *)
Definition ntohl_at (p : list byte) (off : nat) : result Z :=
  b0 ← load p off;
  b1 ← load p (off + 1);
  b2 ← load p (off + 2);
  b3 ← load p (off + 3);
  Ok (be32 b0 b1 b2 b3).

(** [memcpy(dst, src, n)]. *)
Definition memcpy (dst src : list byte) (n : nat) : result (list byte) :=
  if decide (length src < n)%nat then Fault OutOfBoundsRead
  else if decide (length dst < n)%nat then Fault OutOfBoundsWrite
  else Ok (take n src ++ drop n dst).

(** [memset(dst, c, sizeof(dst))]. *)
Definition memset_all (dst : list byte) (c : byte) : list byte :=
  replicate (length dst) c.

(** ** copy_printable_string *)

(** The [while] loop.  [buflen] is the counter tested by [buflen--], [i] the
    distance the pointer [buf] has advanced and [d] the source pointer. *)
Fixpoint copy_loop (buflen : nat) (datalen : Z) (buf : list byte) (i : nat)
    (d : list byte) : result (list byte * nat) :=
  match buflen with
  | O => Ok (buf, i)
  | S buflen' =>
      if datalen =? 0 then Ok (buf, i)
      else
        c ← load d 0;
        if isprint c then
          buf' ← store buf i c;
          copy_loop buflen' (datalen - 1) buf' (S i) (drop 1 d)
        else Ok (buf, i)
  end.

Definition copy_printable_string (buf : list byte) (buflen : Z)
    (data : list byte) (datalen : Z) : result (list byte) :=
  '(buf', i) ← copy_loop (Z.to_nat buflen) datalen buf 0 data;
  store buf' i Byte.x00.

(** ** The packet framer *)

Definition SSH_MSG_KEXINIT : Z := 20.

(** [struct ssh_packet] is packed: [packet_length] at offset 0,
    [padding_length] at offset 4 and [payload] at offset 5. *)
Definition sizeof_struct_ssh_packet : Z := 6.

Section Framer.

(** [sizeof(ssh_packet)], where [ssh_packet] is the local variable of type
    [const struct ssh_packet *]: the size of a data pointer. *)
Variable sizeof_pointer : Z.

(** The result pairs the returned length with the contents of [*msg_code],
    [None] standing for an indeterminate (never assigned) value. *)
Definition ssh_packet_parse (pkt : list byte) (datalen : Z)
    (msg_code : option byte) : result (Z * option byte) :=
  if datalen <? sizeof_pointer then Ok (0, msg_code)
  else
    length ← ntohl_at pkt 0;
    if 32768 <? length then Ok (0, msg_code)
    else
      payload ← load pkt 5;
      padding_length ← load pkt 4;
      Ok (u32 (length - byte_val padding_length - 5), Some payload).

End Framer.

(** The size of a data pointer on the LP64 targets joy is built for. *)
Definition sizeof_pointer_LP64 : Z := 8.

Definition decode_uint32 (data : list byte) : result Z := ntohl_at data 0.

(** ** The observation record *)

(** Modelled from the spec: [enum role] and [struct ssh] are declared in
    [ssh.h], which is not among the sources.  The spec's record has the fields
    role, protocol banner, cookie (16 raw bytes) and first algorithm list;
    [ssh.c] names them [role], [protocol], [cookie] and [host_key_algos].  An
    array field is the list of its elements, so [sizeof] of the field is the
    length of the list. *)
Inductive role : Type := role_unknown | role_client | role_server.

(** The field [role] is the projection [ssh_role], the name [role] being
    taken by the type. *)
Record ssh : Type := mk_ssh {
  ssh_role : role;
  protocol : list byte;
  cookie : list byte;
  host_key_algos : list byte
}.

#[export] Instance role_eq_dec : EqDecision role.
Proof. solve_decision. Defined.

Definition sizeof (a : list byte) : Z := Z.of_nat (length a).

Definition set_role (s : ssh) (r : role) : ssh :=
  mk_ssh r (protocol s) (cookie s) (host_key_algos s).
Definition set_protocol (s : ssh) (a : list byte) : ssh :=
  mk_ssh (ssh_role s) a (cookie s) (host_key_algos s).
Definition set_cookie (s : ssh) (a : list byte) : ssh :=
  mk_ssh (ssh_role s) (protocol s) a (host_key_algos s).
Definition set_host_key_algos (s : ssh) (a : list byte) : ssh :=
  mk_ssh (ssh_role s) (protocol s) (cookie s) a.

(** ** The KEXINIT decoder *)

(** [datalen -= 16] and [datalen -= 4] follow the tests [datalen < 16] and
    [datalen < 4], so neither subtraction can wrap around. *)
Definition ssh_parse_kexinit (s : ssh) (data : list byte) (datalen : Z)
    : result ssh :=
  if datalen <? 16 then Ok s
  else
    c ← memcpy (cookie s) data 16;
    let s := set_cookie s c in
    let data := drop 16 data in
    let datalen := datalen - 16 in
    if datalen <? 4 then Ok s
    else
      length ← decode_uint32 data;
      if length =? 0 then Ok s
      else
        let data := drop 4 data in
        let datalen := datalen - 4 in
        a ← copy_printable_string (host_key_algos s)
              (sizeof (host_key_algos s)) data datalen;
        Ok (set_host_key_algos s a).

(** ** The feature functions *)

Definition ssh_init (s : ssh) : result ssh :=
  p ← store (protocol s) 0 Byte.x00;
  Ok (mk_ssh role_unknown p (memset_all (cookie s) Byte.x00)
        (memset_all (host_key_algos s) Byte.x00)).

Section Update.

Variable sizeof_pointer : Z.

Definition ssh_update (s : ssh) (data : list byte) (len : Z)
    (report_ssh : Z) : result ssh :=
  if len =? 0 then Ok s
  else if report_ssh =? 0 then Ok s
  else
    s ← (if decide (ssh_role s = role_unknown) then
           b ← load (protocol s) 0;
           if byte_val b =? 0 then
             p ← copy_printable_string (protocol s) (sizeof (protocol s))
                   data len;
             Ok (set_role (set_protocol s p) role_client)
           else Ok s
         else Ok s);
    '(length, msg_code) ← ssh_packet_parse sizeof_pointer data len None;
    if length =? 0 then Ok s
    else
      match msg_code with
      | None => Fault IndeterminateRead
      | Some c =>
          if byte_val c =? SSH_MSG_KEXINIT then
            ssh_parse_kexinit s
              (drop (Z.to_nat sizeof_struct_ssh_packet) data) length
          else Ok s
      end.

(** A flow: the calls of [ssh_update] made on one record, in order. *)
Fixpoint ssh_update_all (s : ssh) (calls : list (list byte * Z))
    : result ssh :=
  match calls with
  | [] => Ok s
  | (chunk, report_ssh) :: calls' =>
      s' ← ssh_update s chunk (sizeof chunk) report_ssh;
      ssh_update_all s' calls'
  end.

End Update.

(** ** Reading the record *)

Fixpoint take_while {A : Type} (f : A -> bool) (l : list A) : list A :=
  match l with
  | [] => []
  | x :: l' => if f x then x :: take_while f l' else []
  end.

(** The longest prefix of printable bytes. *)
Definition printable_prefix (l : list byte) : list byte := take_while isprint l.

Definition is_nul (b : byte) : bool := byte_val b =? 0.

(** The string held by a [char] array: the bytes before its first NUL, and
    [None] when the array holds no NUL, that is, is not terminated. *)
Fixpoint c_string (a : list byte) : option (list byte) :=
  match a with
  | [] => None
  | b :: a' => if is_nul b then Some [] else cons b <$> c_string a'
  end.

(** The all-zero record with a banner array of [p] bytes and an algorithm-list
    array of [a] bytes. *)
Definition ssh_zero (p a : nat) : ssh :=
  mk_ssh role_unknown (replicate p Byte.x00) (replicate 16 Byte.x00)
    (replicate a Byte.x00).

(** A call that [ssh_update] skips: an empty chunk or a cleared flag. *)
Definition skipped (call : list byte * Z) : Prop :=
  call.1 = [] \/ call.2 = 0.

(** The record holds no banner yet: [protocol[0] == 0]. *)
Definition banner_empty (s : ssh) : Prop := protocol s !! 0%nat = Some Byte.x00.

(** ** Scenarios *)

(** Nine chunks of 1, 2, ..., 9 zero bytes, each with the analysis flag set. *)
Definition zero_chunks : list (list byte * Z) :=
  map (fun n => (replicate n Byte.x00, 1)) (seq 1 9).

Definition demo_banner : list byte := list_byte_of_string "SSH-2.0-demo".

Definition demo_name_list : list byte :=
  list_byte_of_string "diffie-hellman-group14-sha1".

(** The payload of the KEXINIT packet of the scenario: message type 20, the
    cookie [ck], and the name-list with its length field, 27. *)
Definition demo_payload (ck : list byte) : list byte :=
  Byte.x14 :: ck ++
  [Byte.x00; Byte.x00; Byte.x00; Byte.x1b] ++ demo_name_list.

(** The packet: [packet_length] in the bytes [b0 b1 b2 b3], [padding_length],
    the payload, and [trailer] for the random padding and the MAC. *)
Definition demo_packet (b0 b1 b2 b3 pad : byte) (ck trailer : list byte)
    : list byte :=
  b0 :: b1 :: b2 :: b3 :: pad :: demo_payload ck ++ trailer.

(** Sixteen distinct bytes for the cookie of the examples. *)
Definition demo_cookie : list byte :=
  [Byte.xa0; Byte.xa1; Byte.xa2; Byte.xa3; Byte.xa4; Byte.xa5; Byte.xa6;
   Byte.xa7; Byte.xa8; Byte.xa9; Byte.xaa; Byte.xab; Byte.xac; Byte.xad;
   Byte.xae; Byte.xaf].

(** A record of the size used in the examples, before and after the banner
    of the scenario is stored. *)
Definition demo_record : ssh := ssh_zero 16 32.

Definition demo_record_banner : ssh :=
  mk_ssh role_client (demo_banner ++ replicate 4 Byte.x00)
    (replicate 16 Byte.x00) (replicate 32 Byte.x00).

(** ** Reporting and self-test *)

(** The size of a data pointer on ILP32 targets. *)
Definition sizeof_pointer_ILP32 : Z := 4.

(** The null pointer: no byte may be accessed through it. *)
Definition NULL : list byte := [].

(** A [char] array passed for a [%s] conversion: the bytes up to the first
    NUL are printed, and an array without NUL is read past its end. *)
Definition print_string (a : list byte) : result (list byte) :=
  match c_string a with
  | Some p => Ok p
  | None => Fault OutOfBoundsRead
  end.

(** The literal pieces of the format strings of [ssh_print_json]: comma,
    quote, ssh, quote, colon, brace; quote, protocol, quote, colon, quote;
    comma, quote, cookie, quote, colon; comma, quote, host_key_algo, quote,
    colon, quote; quote; brace. *)
Definition fmt_ssh_open : list byte :=
  [Byte.x2c; Byte.x22] ++ list_byte_of_string "ssh" ++
  [Byte.x22; Byte.x3a; Byte.x7b].
Definition fmt_protocol : list byte :=
  [Byte.x22] ++ list_byte_of_string "protocol" ++
  [Byte.x22; Byte.x3a; Byte.x22].
Definition fmt_cookie : list byte :=
  [Byte.x2c; Byte.x22] ++ list_byte_of_string "cookie" ++
  [Byte.x22; Byte.x3a].
Definition fmt_host_key_algo : list byte :=
  [Byte.x2c; Byte.x22] ++ list_byte_of_string "host_key_algo" ++
  [Byte.x22; Byte.x3a; Byte.x22].
Definition fmt_quote : list byte := [Byte.x22].
Definition fmt_close : list byte := [Byte.x7d].

Section Report.

(** Modelled from the spec: [zfile], [zprintf] and [zprintf_raw_as_hex] come
    from [p2f.h], which is not among the sources.  A [zfile] is the text
    written to it so far and [zprintf] appends to it; the spec leaves the
    rendering of the cookie to the reporting side, so the text that
    [zprintf_raw_as_hex] appends for given bytes is the parameter
    [raw_as_hex]. *)
Variable raw_as_hex : list byte -> list byte.

Definition zprintf_raw_as_hex (f : list byte) (data : list byte) (len : Z)
    : result (list byte) :=
  if decide (length data < Z.to_nat len)%nat then Fault OutOfBoundsRead
  else Ok (f ++ raw_as_hex (take (Z.to_nat len) data)).

(** [x2] is the record of the other direction, or [None] for a null
    pointer; [f] is the file. *)
Definition ssh_print_json (x1 : ssh) (x2 : option ssh) (f : list byte)
    : result (list byte) :=
  if decide (ssh_role x1 <> role_unknown) then
    let f := f ++ fmt_ssh_open in
    b ← load (protocol x1) 0;
    f ← (if negb (byte_val b =? 0) then
           p ← print_string (protocol x1);
           let f := f ++ fmt_protocol ++ p ++ fmt_quote in
           c ← load (cookie x1) 0;
           f ← (if negb (byte_val c =? 0) then
                  let f := f ++ fmt_cookie in
                  zprintf_raw_as_hex f (cookie x1) (sizeof (cookie x1))
                else Ok f);
           a ← print_string (host_key_algos x1);
           Ok (f ++ fmt_host_key_algo ++ a ++ fmt_quote)
         else Ok f);
    Ok (f ++ fmt_close)
  else Ok f.

Variable sizeof_pointer : Z.

(** [ssh_unit_test], from the record [stack] that the local variable [ssh]
    happens to hold and the text [out] already on the standard output, which
    [zattach] hands over as the file. *)
Definition ssh_unit_test (stack : ssh) (out : list byte)
    : result (list byte) :=
  s ← ssh_init stack;
  s ← ssh_update sizeof_pointer s NULL 1 1;
  s ← ssh_update sizeof_pointer s NULL 2 1;
  s ← ssh_update sizeof_pointer s NULL 3 1;
  s ← ssh_update sizeof_pointer s NULL 4 1;
  s ← ssh_update sizeof_pointer s NULL 5 1;
  s ← ssh_update sizeof_pointer s NULL 6 1;
  s ← ssh_update sizeof_pointer s NULL 7 1;
  s ← ssh_update sizeof_pointer s NULL 8 1;
  s ← ssh_update sizeof_pointer s NULL 9 1;
  ssh_print_json s None out.

End Report.

(** [ssh_delete]: no memory needs to be freed. *)
Definition ssh_delete (s : ssh) : ssh := s.

(** ** Packets on the wire *)

(** A binary packet as RFC 4253 lays it out: [packet_length] in the bytes
    [b0 b1 b2 b3], [padding_length], the payload, and [trailer] for the
    random padding and the MAC. *)
Definition framed (b0 b1 b2 b3 pad : byte) (payload trailer : list byte)
    : list byte :=
  b0 :: b1 :: b2 :: b3 :: pad :: payload ++ trailer.

(** The payload of a KEXINIT message: the message code, the cookie, the
    length field of the first name-list, and [lists] for all that follows
    it. *)
Definition kexinit_payload (ck : list byte) (n0 n1 n2 n3 : byte)
    (lists : list byte) : list byte :=
  Byte.x14 :: ck ++ n0 :: n1 :: n2 :: n3 :: lists.

(** ** Invariants of the record *)

(** An array that holds a terminated string of printable bytes. *)
Definition printable_string (a : list byte) : Prop :=
  exists p : list byte,
    c_string a = Some p /\ Forall (fun b => isprint b = true) p.

(** What [ssh_init] establishes and every call of [ssh_update] keeps. *)
Definition coherent (s : ssh) : Prop :=
  printable_string (protocol s) /\
  printable_string (host_key_algos s) /\
  length (cookie s) = 16%nat.

(** Two records with arrays of the same sizes. *)
Definition same_sizes (s s' : ssh) : Prop :=
  length (protocol s') = length (protocol s) /\
  length (cookie s') = length (cookie s) /\
  length (host_key_algos s') = length (host_key_algos s).

(** The header of a chunk does not declare more than the chunk holds: the
    length that the framer returns for it is 0 or fits in what follows the
    6-byte header. *)
Definition within_chunk (sizeof_pointer : Z) (chunk : list byte) : Prop :=
  forall (l : Z) (msg_code : option byte),
    ssh_packet_parse sizeof_pointer chunk (sizeof chunk) None
      = Ok (l, msg_code) ->
    l = 0 \/ l + sizeof_struct_ssh_packet <= sizeof chunk.

(** A call whose chunk is shorter than the banner and the algorithm-list
    arrays of the record [s0] and whose header stays within the chunk. *)
Definition bounded_call (sizeof_pointer : Z) (s0 : ssh)
    (call : list byte * Z) : Prop :=
  (length call.1 < length (protocol s0))%nat /\
  (length call.1 < length (host_key_algos s0))%nat /\
  within_chunk sizeof_pointer call.1.

(** A rendering of bytes as two lower-case hexadecimal digits each, for the
    examples. *)
Definition hex_digit (n : N) : byte :=
  match Byte.of_N (if (n <? 10)%N then 48 + n else 87 + n)%N with
  | Some b => b
  | None => Byte.x3f
  end.

Definition hex_of_bytes (l : list byte) : list byte :=
  flat_map
    (fun b => [hex_digit (Byte.to_N b / 16); hex_digit (Byte.to_N b mod 16)])
    l.

(** ** Facts about bytes and regions *)

Lemma byte_val_range (b : byte) : 0 <= byte_val b <= 255.
Proof.
  unfold byte_val. pose proof (Byte.to_N_bounded b). lia.
Qed.

Lemma be32_range (b0 b1 b2 b3 : byte) : 0 <= be32 b0 b1 b2 b3 < 2 ^ 32.
Proof.
  unfold be32.
  pose proof (byte_val_range b0). pose proof (byte_val_range b1).
  pose proof (byte_val_range b2). pose proof (byte_val_range b3). lia.
Qed.

Lemma isprint_not_nul (b : byte) : isprint b = true -> is_nul b = false.
Proof.
  unfold isprint, is_nul. intros H.
  apply andb_prop in H as [H _]. apply Z.leb_le in H. apply Z.eqb_neq. lia.
Qed.

Lemma sizeof_cons (b : byte) (l : list byte) : sizeof (b :: l) - 1 = sizeof l.
Proof. unfold sizeof. cbn [length]. lia. Qed.

Lemma sizeof_cons_nonzero (b : byte) (l : list byte) :
  (sizeof (b :: l) =? 0) = false.
Proof. apply Z.eqb_neq. unfold sizeof. cbn [length]. lia. Qed.

Lemma take_while_length {A : Type} (f : A -> bool) (l : list A) :
  (length (take_while f l) <= length l)%nat.
Proof.
  induction l as [|x l IH]; cbn; [lia|]. destruct (f x); cbn; lia.
Qed.

Lemma take_while_prefix {A : Type} (f : A -> bool) (l : list A) :
  take (length (take_while f l)) l = take_while f l.
Proof.
  induction l as [|x l IH]; cbn; [done|].
  destruct (f x); cbn; [by rewrite IH | done].
Qed.

Lemma take_while_Forall {A : Type} (f : A -> bool) (l : list A) :
  Forall (fun x => f x = true) (take_while f l).
Proof.
  induction l as [|x l IH]; cbn; [constructor|].
  destruct (f x) eqn:Hx; constructor; done.
Qed.

Lemma c_string_terminated (l r : list byte) :
  Forall (fun b => is_nul b = false) l ->
  c_string (l ++ Byte.x00 :: r) = Some l.
Proof.
  induction 1 as [|b l Hb _ IH]; cbn; [done|]. by rewrite Hb, IH.
Qed.

Lemma c_string_printable (l r : list byte) :
  Forall (fun b => isprint b = true) l ->
  c_string (l ++ Byte.x00 :: r) = Some l.
Proof.
  intros H. apply c_string_terminated.
  eapply Forall_impl; [exact H|]. intros b. apply isprint_not_nul.
Qed.

(** ** The copy loop *)

(** The loop left without a byte copied: the destination is as it was. *)
Ltac loop_stops :=
  rewrite ?Nat.min_0_r, ?Nat.add_0_r, ?take_0; cbn [app];
  by rewrite take_drop.

(** The loop on a source whose first [sizeof src] bytes are [src]: it copies
    [k] bytes, the length of the printable prefix of [src] capped by the
    counter [n], and faults when that runs past the end of [buf]. *)
Lemma copy_loop_spec (n : nat) (src rest buf : list byte) (i : nat) :
  (i <= length buf)%nat ->
  copy_loop n (sizeof src) buf i (src ++ rest) =
    let k := Nat.min n (length (printable_prefix src)) in
    if decide (i + k <= length buf)%nat
    then Ok (take i buf ++ take k src ++ drop (i + k) buf, (i + k)%nat)
    else Fault OutOfBoundsWrite.
Proof.
  revert src buf i. induction n as [|n IH]; intros src buf i Hi; cbn zeta.
  - cbn. rewrite decide_True by lia. loop_stops.
  - destruct src as [|c src].
    + cbn. rewrite decide_True by lia. loop_stops.
    + cbn [copy_loop]. rewrite sizeof_cons_nonzero, sizeof_cons.
      cbn [app load lookup list_lookup mbind result_bind printable_prefix
           take_while].
      destruct (isprint c) eqn:Hc.
      * cbn [length Nat.min]. unfold store.
        destruct (decide (i < length buf)%nat) as [Hlt|Hge].
        -- cbn [mbind result_bind drop]. rewrite IH
             by (rewrite length_insert; lia).
           cbn zeta. rewrite length_insert. fold (printable_prefix src).
           set (k := Nat.min n (length (printable_prefix src))).
           destruct (decide (S i + k <= length buf)%nat) as [Hk|Hk].
           ++ rewrite decide_True by lia. do 2 f_equal; [|lia].
              rewrite take_insert_lt by lia.
              rewrite drop_insert_lt by lia.
              destruct (lookup_lt_is_Some_2 buf i Hlt) as [x Hx].
              rewrite (take_S_r _ _ _ Hx).
              rewrite insert_app_r_alt
                by (rewrite length_take; lia).
              rewrite length_take, Nat.min_l, Nat.sub_diag by lia.
              cbn. rewrite <- app_assoc. cbn.
              by replace (i + S k)%nat with (S i + k)%nat by lia.
           ++ by rewrite decide_False by lia.
        -- cbn. by rewrite decide_False by lia.
      * cbn. rewrite decide_True by lia. loop_stops.
Qed.

Lemma take_while_at_least {A : Type} (f : A -> bool) (l : list A) (n : nat) :
  (n <= length l)%nat -> Forall (fun x => f x = true) (take n l) ->
  (n <= length (take_while f l))%nat.
Proof.
  revert n. induction l as [|x l IH]; intros [|n] Hn Hall; cbn in *; try lia.
  inversion Hall as [|? ? Hx Hl]; subst. rewrite Hx. cbn.
  apply le_n_S, IH; [lia | done].
Qed.

(** ** copy_printable_string *)

(** The copier on a source whose first [sizeof src] bytes are [src]: with
    [k] the length of the printable prefix of [src] capped by [buflen], it
    leaves the first [k] bytes of [src] and a NUL at index [k], and faults
    when index [k] is outside the destination region [buf]. *)
Lemma copy_printable_string_spec (buf : list byte) (buflen : Z)
    (src rest : list byte) :
  copy_printable_string buf buflen (src ++ rest) (sizeof src) =
    let k := Nat.min (Z.to_nat buflen) (length (printable_prefix src)) in
    if decide (k < length buf)%nat
    then Ok (take k src ++ Byte.x00 :: drop (S k) buf)
    else Fault OutOfBoundsWrite.
Proof.
  unfold copy_printable_string. rewrite copy_loop_spec by lia. cbn zeta.
  set (k := Nat.min (Z.to_nat buflen) (length (printable_prefix src))).
  assert (Hk : (k <= length src)%nat).
  { pose proof (take_while_length isprint src). unfold printable_prefix in k.
    lia. }
  rewrite take_0. cbn [Nat.add app].
  destruct (decide (k <= length buf)%nat) as [Hle|Hgt].
  - cbn [mbind result_bind]. unfold store.
    rewrite length_app, length_take, length_drop.
    destruct (decide (k < length buf)%nat) as [Hlt|Hge].
    + rewrite decide_True by lia. f_equal.
      rewrite insert_app_r_alt by (rewrite length_take; lia).
      rewrite length_take, Nat.min_l, Nat.sub_diag by lia.
      destruct (drop k buf) as [|x tl] eqn:Hd.
      * apply (f_equal length) in Hd. rewrite length_drop in Hd. cbn in Hd. lia.
      * cbn. do 2 f_equal.
        change tl with (drop 1 (x :: tl)). rewrite <- Hd, drop_drop.
        f_equal. lia.
    + by rewrite decide_False by lia.
  - cbn. by rewrite decide_False by lia.
Qed.

(** The copier called as [ssh.c] calls it, on a whole array and a whole
    chunk, when the printable prefix of the chunk is shorter than the array. *)
Lemma copy_printable_string_fits (buf data : list byte) :
  (length (printable_prefix data) < length buf)%nat ->
  copy_printable_string buf (sizeof buf) data (sizeof data) =
    Ok (printable_prefix data ++
        Byte.x00 :: drop (S (length (printable_prefix data))) buf).
Proof.
  intros Hfit. rewrite <- (app_nil_r data) at 1.
  rewrite copy_printable_string_spec. cbn zeta. unfold sizeof.
  rewrite Nat2Z.id, Nat.min_r by lia. rewrite decide_True by lia.
  unfold printable_prefix. by rewrite take_while_prefix.
Qed.

(** When the copier returns, called on a whole array and a whole chunk, the
    array keeps its size and holds the printable prefix of the chunk as a
    terminated string. *)
Lemma copy_printable_string_ok (buf data buf' : list byte) :
  copy_printable_string buf (sizeof buf) data (sizeof data) = Ok buf' ->
  length buf' = length buf /\ c_string buf' = Some (printable_prefix data).
Proof.
  rewrite <- (app_nil_r data) at 1.
  rewrite copy_printable_string_spec. cbn zeta. unfold sizeof.
  rewrite Nat2Z.id.
  destruct (decide _) as [Hlt|]; [|done]. intros [= <-].
  pose proof (take_while_length isprint data) as Hpp.
  fold (printable_prefix data) in Hpp.
  destruct (Nat.min_spec (length buf) (length (printable_prefix data)))
    as [[Hc Hm]|[Hc Hm]]; rewrite Hm in *; [lia|].
  assert (Hpre : take (length (printable_prefix data)) data
                 = printable_prefix data) by apply take_while_prefix.
  rewrite Hpre. split.
  - rewrite length_app. cbn [length]. rewrite length_drop. lia.
  - apply c_string_printable, take_while_Forall.
Qed.

(** ** The packet framer *)

Lemma ntohl_at_cons4 (b0 b1 b2 b3 : byte) (rest : list byte) :
  ntohl_at (b0 :: b1 :: b2 :: b3 :: rest) 0 = Ok (be32 b0 b1 b2 b3).
Proof. reflexivity. Qed.

(** The framer leaves [*msg_code] unassigned only when it returns 0, so the
    [switch] of [ssh_update] never reads an indeterminate value. *)
Lemma ssh_packet_parse_msg_code (sizeof_pointer : Z) (pkt : list byte)
    (datalen length : Z) :
  ssh_packet_parse sizeof_pointer pkt datalen None = Ok (length, None) ->
  length = 0.
Proof.
  unfold ssh_packet_parse. destruct (datalen <? sizeof_pointer); [congruence|].
  destruct (ntohl_at pkt 0) as [n|]; [|done]. cbn [mbind result_bind].
  destruct (32768 <? n); [congruence|].
  destruct (load pkt 5); [|done]. cbn [mbind result_bind].
  destruct (load pkt 4); done.
Qed.

(** C6: a buffer of fewer than 6 bytes is rejected with the sentinel 0 and
    without any read.  The call returns for every readable region [pkt],
    the empty one included, so no byte is read at all; it holds wherever a
    data pointer is at least as large as the 6-byte header. *)
Theorem ssh_packet_parse_short (sizeof_pointer : Z) (pkt : list byte)
    (datalen : Z) (msg_code : option byte) :
  sizeof_struct_ssh_packet <= sizeof_pointer ->
  datalen < 6 ->
  ssh_packet_parse sizeof_pointer pkt datalen msg_code = Ok (0, msg_code).
Proof.
  unfold sizeof_struct_ssh_packet, ssh_packet_parse. intros Hp Hn.
  destruct (Z.ltb_spec datalen sizeof_pointer); [done | lia].
Qed.

Lemma ssh_packet_parse_short_witness :
  sizeof_struct_ssh_packet <= sizeof_pointer_LP64 /\
  5 < 6 /\
  ssh_packet_parse sizeof_pointer_LP64 [] 5 None = Ok (0, None).
Proof.
  split; [unfold sizeof_struct_ssh_packet, sizeof_pointer_LP64; lia|].
  split; [lia|].
  apply ssh_packet_parse_short;
    [unfold sizeof_struct_ssh_packet, sizeof_pointer_LP64; lia | lia].
Defined.

(** C7: a packet whose big-endian [packet_length] exceeds 32768 is rejected
    with the sentinel 0, and [*msg_code] is left as it was. *)
Theorem ssh_packet_parse_ceiling (sizeof_pointer : Z) (b0 b1 b2 b3 : byte)
    (rest : list byte) (datalen : Z) (msg_code : option byte) :
  sizeof_pointer <= datalen ->
  32768 < be32 b0 b1 b2 b3 ->
  ssh_packet_parse sizeof_pointer (b0 :: b1 :: b2 :: b3 :: rest) datalen
    msg_code = Ok (0, msg_code).
Proof.
  intros Hn Hlen. unfold ssh_packet_parse.
  destruct (Z.ltb_spec datalen sizeof_pointer); [done|].
  rewrite ntohl_at_cons4. cbn [mbind result_bind].
  destruct (Z.ltb_spec 32768 (be32 b0 b1 b2 b3)); [done | lia].
Qed.

Lemma ssh_packet_parse_ceiling_witness :
  sizeof_pointer_LP64 <= 8 /\
  32768 < be32 Byte.x00 Byte.x00 Byte.x80 Byte.x01 /\
  ssh_packet_parse sizeof_pointer_LP64
    [Byte.x00; Byte.x00; Byte.x80; Byte.x01; Byte.x04; Byte.x14; Byte.x00;
     Byte.x00] 8 None = Ok (0, None).
Proof.
  split; [unfold sizeof_pointer_LP64; lia|].
  split; [vm_compute; reflexivity|].
  apply ssh_packet_parse_ceiling;
    [unfold sizeof_pointer_LP64; lia | vm_compute; reflexivity].
Defined.

(** C10: on a target with 8-byte pointers a buffer of 6 or 7 bytes, which
    holds the whole 6-byte header, is rejected with the sentinel 0: the size
    test of the framer compares against the size of the pointer. *)
Theorem ssh_packet_parse_pointer_size (pkt : list byte) (datalen : Z)
    (msg_code : option byte) :
  datalen = 6 \/ datalen = 7 ->
  sizeof_struct_ssh_packet <= datalen < sizeof_pointer_LP64 /\
  ssh_packet_parse sizeof_pointer_LP64 pkt datalen msg_code
    = Ok (0, msg_code).
Proof.
  unfold sizeof_struct_ssh_packet, sizeof_pointer_LP64, ssh_packet_parse.
  intros Hn. split; [lia|].
  destruct (Z.ltb_spec datalen 8); [done | lia].
Qed.

Lemma ssh_packet_parse_pointer_size_witness :
  (6 = 6 \/ 6 = 7) /\
  sizeof_struct_ssh_packet <= 6 < sizeof_pointer_LP64 /\
  ssh_packet_parse sizeof_pointer_LP64
    [Byte.x00; Byte.x00; Byte.x00; Byte.x0c; Byte.x04; Byte.x14] 6 None
    = Ok (0, None).
Proof.
  split; [left; reflexivity|].
  apply ssh_packet_parse_pointer_size. left; reflexivity.
Defined.

(** The header of C10's witness does parse once the size test lets it
    through: with the 6 bytes of [struct ssh_packet] as the threshold the
    framer reports message code 20 and length 3. *)
Lemma ssh_packet_parse_struct_size_example :
  ssh_packet_parse sizeof_struct_ssh_packet
    [Byte.x00; Byte.x00; Byte.x00; Byte.x0c; Byte.x04; Byte.x14] 6 None
    = Ok (3, Some Byte.x14).
Proof. reflexivity. Qed.

(** C3 (the code departs from the claim): when [padding_length + 5] exceeds
    the decoded [packet_length], the framer does not fail; the unsigned
    subtraction wraps around and the call returns a length of at least
    [2 ^ 32 - 260]. *)
Theorem ssh_packet_parse_underflow (sizeof_pointer : Z)
    (b0 b1 b2 b3 pad msg : byte) (rest : list byte) (datalen : Z)
    (msg_code : option byte) :
  sizeof_pointer <= datalen ->
  be32 b0 b1 b2 b3 <= 32768 ->
  be32 b0 b1 b2 b3 < byte_val pad + 5 ->
  ssh_packet_parse sizeof_pointer (b0 :: b1 :: b2 :: b3 :: pad :: msg :: rest)
    datalen msg_code
    = Ok (2 ^ 32 + be32 b0 b1 b2 b3 - byte_val pad - 5, Some msg) /\
  2 ^ 32 - 260 <= 2 ^ 32 + be32 b0 b1 b2 b3 - byte_val pad - 5 < 2 ^ 32.
Proof.
  intros Hn Hceil Hunder.
  pose proof (be32_range b0 b1 b2 b3). pose proof (byte_val_range pad).
  split; [|lia]. unfold ssh_packet_parse.
  destruct (Z.ltb_spec datalen sizeof_pointer); [lia|].
  rewrite ntohl_at_cons4. cbn [mbind result_bind].
  destruct (Z.ltb_spec 32768 (be32 b0 b1 b2 b3)); [lia|].
  cbn [load lookup list_lookup mbind result_bind]. do 2 f_equal. unfold u32.
  symmetry. apply Z.mod_unique with (q := -1); lia.
Qed.

Lemma ssh_packet_parse_underflow_witness :
  sizeof_pointer_LP64 <= 8 /\
  be32 Byte.x00 Byte.x00 Byte.x00 Byte.x00 <= 32768 /\
  be32 Byte.x00 Byte.x00 Byte.x00 Byte.x00 < byte_val Byte.x00 + 5 /\
  ssh_packet_parse sizeof_pointer_LP64 (replicate 8 Byte.x00) 8 None
    = Ok (4294967291, Some Byte.x00).
Proof.
  split; [unfold sizeof_pointer_LP64; lia|].
  split; [vm_compute; discriminate|].
  split; [vm_compute; reflexivity|].
  apply (ssh_packet_parse_underflow sizeof_pointer_LP64
           Byte.x00 Byte.x00 Byte.x00 Byte.x00 Byte.x00 Byte.x00
           [Byte.x00; Byte.x00] 8 None);
    [unfold sizeof_pointer_LP64; lia | vm_compute; discriminate
    | vm_compute; reflexivity].
Defined.

(** ** Overflow of the copier *)

(** C2 (the code departs from the claim): called with the size of its
    destination as capacity on a source whose first [sizeof buf] bytes are
    printable, the copier does not stop at [sizeof buf - 1] bytes.  It copies
    [sizeof buf] bytes and writes the terminator at index [sizeof buf]: a
    fault when the region ends with the array, and a write onto [next], the
    byte that follows the array, when the region extends further. *)
Theorem copy_printable_string_overflow (buf data : list byte) (next : byte)
    (more : list byte) :
  (1 <= length buf)%nat ->
  (length buf <= length data)%nat ->
  Forall (fun b => isprint b = true) (take (length buf) data) ->
  copy_printable_string buf (sizeof buf) data (sizeof data)
    = Fault OutOfBoundsWrite /\
  copy_printable_string (buf ++ next :: more) (sizeof buf) data (sizeof data)
    = Ok (take (length buf) data ++ Byte.x00 :: more).
Proof.
  intros _ Hlen Hprint.
  pose proof (take_while_at_least isprint data _ Hlen Hprint) as Hpp.
  fold (printable_prefix data) in Hpp.
  rewrite <- (app_nil_r data) at 1 3.
  rewrite !copy_printable_string_spec. cbn zeta. unfold sizeof.
  rewrite Nat2Z.id, Nat.min_l by lia. split.
  - by rewrite decide_False by lia.
  - rewrite decide_True by (rewrite length_app; cbn; lia).
    do 2 f_equal.
    replace (S (length buf)) with (length buf + 1)%nat by lia.
    rewrite <- drop_drop, drop_app_length. done.
Qed.

Lemma copy_printable_string_overflow_witness :
  (1 <= length [Byte.x00])%nat /\
  (length [Byte.x00] <= length [Byte.x41])%nat /\
  Forall (fun b => isprint b = true) (take (length [Byte.x00]) [Byte.x41]) /\
  copy_printable_string [Byte.x00] 1 [Byte.x41] 1 = Fault OutOfBoundsWrite /\
  copy_printable_string [Byte.x00; Byte.xff; Byte.xee] 1 [Byte.x41] 1
    = Ok [Byte.x41; Byte.x00; Byte.xee].
Proof.
  split; [cbn; lia|]. split; [cbn; lia|].
  split; [repeat constructor|].
  apply (copy_printable_string_overflow [Byte.x00] [Byte.x41] Byte.xff
           [Byte.xee]); [cbn; lia | cbn; lia | repeat constructor].
Defined.

(** ** The KEXINIT decoder *)

(** C1 (the claim as amended): with fewer than 16 bytes the decoder leaves
    the record as it was; with 16 bytes or more it overwrites the cookie with
    the first 16, and when the decode then stops, for lack of 4 further bytes
    or on a zero name-list length, it leaves the algorithm list as it was;
    when the decode goes through, both fields are written. *)
Theorem ssh_parse_kexinit_stages (s : ssh) (data : list byte) (datalen : Z) :
  (datalen < 16 -> ssh_parse_kexinit s data datalen = Ok s) /\
  (16 <= datalen -> (16 <= length data)%nat -> (16 <= length (cookie s))%nat ->
   datalen < 20 \/ decode_uint32 (drop 16 data) = Ok 0 ->
   ssh_parse_kexinit s data datalen
     = Ok (set_cookie s (take 16 data ++ drop 16 (cookie s)))) /\
  (forall (n : Z) (s' : ssh),
   20 <= datalen -> decode_uint32 (drop 16 data) = Ok n -> n <> 0 ->
   ssh_parse_kexinit s data datalen = Ok s' ->
   cookie s' = take 16 data ++ drop 16 (cookie s) /\
   copy_printable_string (host_key_algos s) (sizeof (host_key_algos s))
     (drop 4 (drop 16 data)) (datalen - 16 - 4) = Ok (host_key_algos s') /\
   ssh_role s' = ssh_role s /\ protocol s' = protocol s).
Proof.
  unfold ssh_parse_kexinit. split; [|split].
  - intros Hlt. by destruct (Z.ltb_spec datalen 16); [|lia].
  - intros Hge Hdata Hcookie Hstop.
    destruct (Z.ltb_spec datalen 16); [lia|]. unfold memcpy.
    rewrite !decide_False by lia. cbn [mbind result_bind].
    destruct (Z.ltb_spec (datalen - 16) 4); [done|].
    destruct Hstop as [? | ->]; [lia|]. done.
  - intros n s' Hge Hn Hn0.
    destruct (Z.ltb_spec datalen 16); [lia|]. unfold memcpy.
    repeat case_decide; try done. cbn [mbind result_bind].
    destruct (Z.ltb_spec (datalen - 16) 4); [lia|]. rewrite Hn.
    cbn [mbind result_bind]. destruct (Z.eqb_spec n 0); [done|].
    cbn [set_cookie host_key_algos].
    destruct (copy_printable_string _ _ _ _); [|done].
    by intros [= <-].
Qed.

Lemma ssh_parse_kexinit_stages_witness :
  (15 < 16 /\
   ssh_parse_kexinit (ssh_zero 8 8) (replicate 15 Byte.x41) 15
     = Ok (ssh_zero 8 8)) /\
  (16 <= 16 /\
   (16 <= length (replicate 16 Byte.x41))%nat /\
   (16 <= length (cookie (ssh_zero 8 8)))%nat /\
   ssh_parse_kexinit (ssh_zero 8 8) (replicate 16 Byte.x41) 16
     = Ok (set_cookie (ssh_zero 8 8) (replicate 16 Byte.x41))) /\
  (20 <= 25 /\
   decode_uint32
     (drop 16 (replicate 16 Byte.x41 ++
               [Byte.x00; Byte.x00; Byte.x00; Byte.x05] ++
               list_byte_of_string "ssh-x")) = Ok 5 /\
   5 <> 0 /\
   cookie (mk_ssh role_unknown (replicate 8 Byte.x00) (replicate 16 Byte.x41)
             (list_byte_of_string "ssh-x" ++ replicate 3 Byte.x00))
     = replicate 16 Byte.x41).
Proof.
  split; [|split].
  - split; [lia|].
    apply (proj1 (ssh_parse_kexinit_stages (ssh_zero 8 8)
                    (replicate 15 Byte.x41) 15)). lia.
  - split; [lia|]. split; [cbn; lia|]. split; [cbn; lia|].
    apply (proj1 (proj2 (ssh_parse_kexinit_stages (ssh_zero 8 8)
                           (replicate 16 Byte.x41) 16)));
      [lia | cbn; lia | cbn; lia | left; lia].
  - split; [lia|]. split; [reflexivity|]. split; [lia|].
    apply (proj2 (proj2 (ssh_parse_kexinit_stages (ssh_zero 8 8)
              (replicate 16 Byte.x41 ++
               [Byte.x00; Byte.x00; Byte.x00; Byte.x05] ++
               list_byte_of_string "ssh-x") 25)) 5
             (mk_ssh role_unknown (replicate 8 Byte.x00)
                (replicate 16 Byte.x41)
                (list_byte_of_string "ssh-x" ++ replicate 3 Byte.x00)));
      [lia | reflexivity | lia | reflexivity].
Defined.

(** C1 (against the claim as stated): a KEXINIT payload of exactly 16 bytes
    has no room for the length field, so the decode stops there; the cookie
    has been overwritten and the algorithm list is as it was. *)
Lemma ssh_parse_kexinit_cookie_only :
  ssh_parse_kexinit (ssh_zero 8 8) (replicate 16 Byte.x41) 16
    = Ok (set_cookie (ssh_zero 8 8) (replicate 16 Byte.x41)) /\
  cookie (set_cookie (ssh_zero 8 8) (replicate 16 Byte.x41))
    <> cookie (ssh_zero 8 8) /\
  host_key_algos (set_cookie (ssh_zero 8 8) (replicate 16 Byte.x41))
    = host_key_algos (ssh_zero 8 8).
Proof. repeat split. discriminate. Qed.

Lemma ssh_parse_kexinit_frame (s s' : ssh) (data : list byte) (datalen : Z) :
  ssh_parse_kexinit s data datalen = Ok s' ->
  ssh_role s' = ssh_role s /\ protocol s' = protocol s.
Proof.
  unfold ssh_parse_kexinit.
  destruct (datalen <? 16); [by intros [= <-]|].
  destruct (memcpy _ _ _); [|done]. cbn [mbind result_bind].
  destruct (datalen - 16 <? 4); [by intros [= <-]|].
  destruct (decode_uint32 _) as [n|]; [|done]. cbn [mbind result_bind].
  destruct (n =? 0); [by intros [= <-]|].
  destruct (copy_printable_string _ _ _ _); [|done].
  by intros [= <-].
Qed.

(** ** The accumulator *)

Lemma ssh_update_empty (sizeof_pointer : Z) (s : ssh) (data : list byte)
    (report_ssh : Z) :
  ssh_update sizeof_pointer s data 0 report_ssh = Ok s.
Proof. reflexivity. Qed.

Lemma ssh_update_disabled (sizeof_pointer : Z) (s : ssh) (data : list byte)
    (len : Z) :
  ssh_update sizeof_pointer s data len 0 = Ok s.
Proof. unfold ssh_update. by destruct (len =? 0). Qed.

(** C9: a call with an empty chunk, and a call with the analysis flag
    cleared, return the record they were given. *)
Theorem ssh_update_skips (sizeof_pointer : Z) (s : ssh) (data : list byte)
    (len report_ssh : Z) :
  ssh_update sizeof_pointer s data 0 report_ssh = Ok s /\
  ssh_update sizeof_pointer s data len 0 = Ok s.
Proof. split; [apply ssh_update_empty | apply ssh_update_disabled]. Qed.

Lemma sizeof_nonempty (l : list byte) : l <> [] -> (sizeof l =? 0) = false.
Proof. destruct l; [done|]. intros _. apply sizeof_cons_nonzero. Qed.

(** What a call does to a record whose role is known: only the framer and
    the dispatch on the message code remain. *)
Lemma ssh_update_known_eq (sizeof_pointer : Z) (s : ssh) (data : list byte)
    (len report_ssh : Z) :
  ssh_role s <> role_unknown -> len <> 0 -> report_ssh <> 0 ->
  ssh_update sizeof_pointer s data len report_ssh =
    '(length, msg_code) ← ssh_packet_parse sizeof_pointer data len None;
    if length =? 0 then Ok s
    else
      match msg_code with
      | None => Fault IndeterminateRead
      | Some c =>
          if byte_val c =? SSH_MSG_KEXINIT then
            ssh_parse_kexinit s
              (drop (Z.to_nat sizeof_struct_ssh_packet) data) length
          else Ok s
      end.
Proof.
  intros Hrole Hlen Hflag. unfold ssh_update.
  destruct (Z.eqb_spec len 0); [done|].
  destruct (Z.eqb_spec report_ssh 0); [done|].
  by rewrite decide_False by done.
Qed.

(** A chunk the framer rejects is dropped. *)
Lemma ssh_update_dropped (sizeof_pointer : Z) (s : ssh) (data : list byte)
    (len report_ssh : Z) (msg_code : option byte) :
  ssh_role s <> role_unknown ->
  ssh_packet_parse sizeof_pointer data len None = Ok (0, msg_code) ->
  ssh_update sizeof_pointer s data len report_ssh = Ok s.
Proof.
  intros Hrole Hparse. unfold ssh_update.
  destruct (len =? 0); [done|]. destruct (report_ssh =? 0); [done|].
  rewrite decide_False by done. cbn [mbind result_bind].
  by rewrite Hparse.
Qed.

(** A message other than KEXINIT is ignored. *)
Lemma ssh_update_ignored (sizeof_pointer : Z) (s : ssh) (data : list byte)
    (len report_ssh length : Z) (c : byte) :
  ssh_role s <> role_unknown ->
  ssh_packet_parse sizeof_pointer data len None = Ok (length, Some c) ->
  byte_val c <> SSH_MSG_KEXINIT ->
  ssh_update sizeof_pointer s data len report_ssh = Ok s.
Proof.
  intros Hrole Hparse Hc. unfold ssh_update.
  destruct (len =? 0); [done|]. destruct (report_ssh =? 0); [done|].
  rewrite decide_False by done. cbn [mbind result_bind].
  rewrite Hparse. cbn [mbind result_bind].
  destruct (length =? 0); [done|].
  by destruct (Z.eqb_spec (byte_val c) SSH_MSG_KEXINIT).
Qed.

(** The first analysed chunk of a record without banner: once the banner is
    stored and the role set, the call goes on as a call on the new record. *)
Lemma ssh_update_unknown_eq (sizeof_pointer : Z) (s : ssh)
    (chunk : list byte) (report_ssh : Z) :
  ssh_role s = role_unknown -> banner_empty s ->
  chunk <> [] -> report_ssh <> 0 ->
  ssh_update sizeof_pointer s chunk (sizeof chunk) report_ssh =
    p ← copy_printable_string (protocol s) (sizeof (protocol s)) chunk
          (sizeof chunk);
    ssh_update sizeof_pointer (set_role (set_protocol s p) role_client)
      chunk (sizeof chunk) report_ssh.
Proof.
  intros Hrole Hempty Hchunk Hflag. unfold ssh_update at 1.
  rewrite (sizeof_nonempty _ Hchunk).
  destruct (Z.eqb_spec report_ssh 0); [done|].
  rewrite decide_True by done. unfold load. rewrite Hempty.
  cbn [mbind result_bind]. change (byte_val Byte.x00 =? 0) with true.
  cbn match.
  destruct (copy_printable_string _ _ _ _) as [p|]; [|done].
  cbn [mbind result_bind].
  rewrite ssh_update_known_eq; [done | done | | done].
  apply Z.eqb_neq, sizeof_nonempty, Hchunk.
Qed.

Lemma ssh_update_known (sizeof_pointer : Z) (s s' : ssh) (data : list byte)
    (len report_ssh : Z) :
  ssh_role s <> role_unknown ->
  ssh_update sizeof_pointer s data len report_ssh = Ok s' ->
  ssh_role s' = ssh_role s /\ protocol s' = protocol s.
Proof.
  intros Hrole. unfold ssh_update.
  destruct (len =? 0); [by intros [= <-]|].
  destruct (report_ssh =? 0); [by intros [= <-]|].
  rewrite decide_False by done. cbn [mbind result_bind].
  destruct (ssh_packet_parse _ _ _ _) as [[length msg_code]|]; [|done].
  cbn [mbind result_bind].
  destruct (length =? 0); [by intros [= <-]|].
  destruct msg_code as [c|]; [|done].
  destruct (byte_val c =? SSH_MSG_KEXINIT); [|by intros [= <-]].
  apply ssh_parse_kexinit_frame.
Qed.

Lemma ssh_update_first (sizeof_pointer : Z) (s s' : ssh) (chunk : list byte)
    (report_ssh : Z) :
  ssh_role s = role_unknown -> banner_empty s ->
  chunk <> [] -> report_ssh <> 0 ->
  ssh_update sizeof_pointer s chunk (sizeof chunk) report_ssh = Ok s' ->
  ssh_role s' = role_client /\
  c_string (protocol s') = Some (printable_prefix chunk).
Proof.
  intros Hrole Hempty Hchunk Hflag.
  rewrite ssh_update_unknown_eq by done.
  destruct (copy_printable_string _ _ _ _) as [p|] eqn:Hcopy; [|done].
  cbn [mbind result_bind]. intros Hrest.
  apply ssh_update_known in Hrest as [-> ->]; [|done].
  split; [done|]. cbn [set_role set_protocol protocol].
  by apply copy_printable_string_ok in Hcopy as [_ ->].
Qed.

Lemma ssh_update_all_app (sizeof_pointer : Z) (s : ssh)
    (l1 l2 : list (list byte * Z)) :
  ssh_update_all sizeof_pointer s (l1 ++ l2) =
    s' ← ssh_update_all sizeof_pointer s l1;
    ssh_update_all sizeof_pointer s' l2.
Proof.
  revert s. induction l1 as [|[chunk flag] l1 IH]; intros s; [done|].
  cbn [app ssh_update_all].
  destruct (ssh_update _ _ _ _ _) as [s1|]; [|done]. apply IH.
Qed.

Lemma ssh_update_all_skipped (sizeof_pointer : Z) (s : ssh)
    (calls : list (list byte * Z)) :
  Forall skipped calls -> ssh_update_all sizeof_pointer s calls = Ok s.
Proof.
  induction 1 as [|[chunk flag] calls Hskip _ IH]; [done|].
  cbn [ssh_update_all].
  destruct Hskip as [Hc|Hf]; cbn in Hc || cbn in Hf; subst.
  - by rewrite ssh_update_empty.
  - by rewrite ssh_update_disabled.
Qed.

Lemma ssh_update_all_known (sizeof_pointer : Z) (s s' : ssh)
    (calls : list (list byte * Z)) :
  ssh_role s <> role_unknown ->
  ssh_update_all sizeof_pointer s calls = Ok s' ->
  ssh_role s' = ssh_role s /\ protocol s' = protocol s.
Proof.
  revert s. induction calls as [|[chunk flag] calls IH]; intros s Hrole.
  - by intros [= <-].
  - cbn [ssh_update_all].
    destruct (ssh_update _ _ _ _ _) as [s1|] eqn:Hs1; [|done].
    cbn [mbind result_bind]. intros Hrest.
    apply ssh_update_known in Hs1 as [Hr Hp]; [|done].
    apply IH in Hrest as [-> ->]; [done | congruence].
Qed.

Lemma ssh_init_ok (s0 s : ssh) :
  ssh_init s0 = Ok s ->
  ssh_role s = role_unknown /\ banner_empty s /\
  length (protocol s) = length (protocol s0) /\
  cookie s = replicate (length (cookie s0)) Byte.x00 /\
  host_key_algos s = replicate (length (host_key_algos s0)) Byte.x00.
Proof.
  unfold ssh_init, store. case_decide as Hlen; [|done]. intros [= <-].
  unfold banner_empty, memset_all. cbn.
  rewrite list_lookup_insert_eq, length_insert by done. done.
Qed.

(** The all-zero record is a record fresh from [ssh_init]. *)
Lemma ssh_init_zero (p a : nat) :
  ssh_init (ssh_zero (S p) a) = Ok (ssh_zero (S p) a).
Proof.
  unfold ssh_init, store, ssh_zero, memset_all. cbn [protocol cookie
    host_key_algos]. rewrite !length_replicate.
  rewrite decide_True by lia. by rewrite insert_replicate.
Qed.







(** ** The scenario of the nine zero chunks *)

Lemma banner_empty_head (s : ssh) :
  banner_empty s -> Byte.x00 :: drop 1 (protocol s) = protocol s.
Proof.
  unfold banner_empty. destruct (protocol s) as [|b p]; [done|].
  cbn. by intros [= ->].
Qed.

(** C8: nine chunks of 1 to 9 zero bytes, fed with the analysis flag set to a
    record fresh from [ssh_init] on a target with 8-byte pointers, leave the
    role client, the banner empty, the cookie all zero and the algorithm list
    empty.  The chunks of 1 to 7 bytes are rejected by the size test of the
    framer; those of 8 and 9 bytes pass it and carry message code 0, which is
    ignored. *)
Theorem ssh_update_zero_chunks (s0 s : ssh) :
  ssh_init s0 = Ok s ->
  length (cookie s0) = 16%nat ->
  (1 <= length (host_key_algos s0))%nat ->
  exists s' : ssh,
    ssh_update_all sizeof_pointer_LP64 s zero_chunks = Ok s' /\
    ssh_role s' = role_client /\
    c_string (protocol s') = Some [] /\
    cookie s' = replicate 16 Byte.x00 /\
    c_string (host_key_algos s') = Some [].
Proof.
  intros Hinit Hcookie Halgos.
  apply ssh_init_ok in Hinit as (Hrole & Hempty & Hlen & Hck & Hal).
  exists (set_role s role_client). split.
  - unfold zero_chunks. cbn [map seq replicate ssh_update_all].
    rewrite ssh_update_unknown_eq by (done || lia).
    assert (Hp : (0 < length (protocol s))%nat).
    { apply lookup_lt_is_Some. by rewrite Hempty. }
    rewrite copy_printable_string_fits by (cbn; lia).
    cbn [printable_prefix take_while isprint length app mbind result_bind].
    change (isprint Byte.x00) with false. cbn [app length].
    rewrite banner_empty_head by done.
    assert (Hs : set_protocol s (protocol s) = s) by (by destruct s).
    rewrite Hs.
    assert (Hknown : ssh_role (set_role s role_client) <> role_unknown)
      by done.
    repeat (rewrite (ssh_update_dropped _ _ _ _ _ None Hknown)
              by reflexivity; cbn [mbind result_bind]).
    repeat (rewrite (ssh_update_ignored _ _ _ _ _ 4294967291 Byte.x00 Hknown)
              by (reflexivity || discriminate); cbn [mbind result_bind]).
    done.
  - cbn [set_role ssh_role protocol cookie host_key_algos].
    rewrite Hck, Hal, Hcookie. repeat split.
    + unfold banner_empty in Hempty.
      destruct (protocol s) as [|b p]; [done|]. by injection Hempty as ->.
    + destruct (length (host_key_algos s0)); [lia | done].
Qed.

Lemma ssh_update_zero_chunks_witness :
  ssh_init (ssh_zero 16 32) = Ok (ssh_zero 16 32) /\
  length (cookie (ssh_zero 16 32)) = 16%nat /\
  (1 <= length (host_key_algos (ssh_zero 16 32)))%nat /\
  exists s' : ssh,
    ssh_update_all sizeof_pointer_LP64 (ssh_zero 16 32) zero_chunks = Ok s' /\
    ssh_role s' = role_client /\
    c_string (protocol s') = Some [] /\
    cookie s' = replicate 16 Byte.x00 /\
    c_string (host_key_algos s') = Some [].
Proof.
  split; [reflexivity|]. split; [reflexivity|]. split; [cbn; lia|].
  apply (ssh_update_zero_chunks (ssh_zero 16 32) (ssh_zero 16 32));
    [reflexivity | reflexivity | cbn; lia].
Defined.

(** ** The scenario of the banner and the KEXINIT packet *)

(** The framer on a header it accepts and whose subtraction does not wrap. *)
Lemma ssh_packet_parse_header (sizeof_pointer : Z) (b0 b1 b2 b3 pad msg : byte)
    (rest : list byte) (datalen : Z) (msg_code : option byte) :
  sizeof_pointer <= datalen ->
  be32 b0 b1 b2 b3 <= 32768 ->
  byte_val pad + 5 <= be32 b0 b1 b2 b3 ->
  ssh_packet_parse sizeof_pointer (b0 :: b1 :: b2 :: b3 :: pad :: msg :: rest)
    datalen msg_code
    = Ok (be32 b0 b1 b2 b3 - byte_val pad - 5, Some msg).
Proof.
  intros Hn Hceil Hpad. pose proof (byte_val_range pad).
  unfold ssh_packet_parse.
  destruct (Z.ltb_spec datalen sizeof_pointer); [lia|].
  rewrite ntohl_at_cons4. cbn [mbind result_bind].
  destruct (Z.ltb_spec 32768 (be32 b0 b1 b2 b3)); [lia|].
  cbn [load lookup list_lookup mbind result_bind]. do 2 f_equal.
  unfold u32. apply Z.mod_small. lia.
Qed.

(** The decoder on a payload that holds a cookie, a non-zero length field and
    [src], the bytes that the caller's [datalen] leaves after them. *)
Lemma ssh_parse_kexinit_name_list (s : ssh) (ck : list byte)
    (n0 n1 n2 n3 : byte) (src rest : list byte) :
  length ck = 16%nat -> length (cookie s) = 16%nat ->
  be32 n0 n1 n2 n3 <> 0 ->
  ssh_parse_kexinit s (ck ++ n0 :: n1 :: n2 :: n3 :: src ++ rest)
    (16 + 4 + sizeof src) =
    a ← copy_printable_string (host_key_algos s) (sizeof (host_key_algos s))
          (src ++ rest) (sizeof src);
    Ok (set_host_key_algos (set_cookie s ck) a).
Proof.
  intros Hck Hcookie Hn. unfold ssh_parse_kexinit, sizeof.
  destruct (Z.ltb_spec (16 + 4 + Z.of_nat (length src)) 16); [lia|].
  unfold memcpy. rewrite length_app, Hck, Hcookie.
  rewrite !decide_False by lia. cbn [mbind result_bind].
  rewrite (take_app_length' ck _ 16), (drop_app_length' ck _ 16) by done.
  rewrite drop_ge, app_nil_r by lia.
  destruct (Z.ltb_spec (16 + 4 + Z.of_nat (length src) - 16) 4); [lia|].
  unfold decode_uint32. rewrite ntohl_at_cons4. cbn [mbind result_bind].
  destruct (Z.eqb_spec (be32 n0 n1 n2 n3) 0); [done|].
  cbn [drop set_cookie host_key_algos].
  replace (16 + 4 + Z.of_nat (length src) - 16 - 4)
    with (Z.of_nat (length src)) by lia.
  done.
Qed.

Lemma demo_payload_size (ck : list byte) :
  length ck = 16%nat -> sizeof (demo_payload ck) = 48.
Proof.
  intros Hck. unfold sizeof, demo_payload. cbn [length].
  rewrite length_app, Hck. cbn. lia.
Qed.

(** What the framer reports for the packet of the scenario: message code 20
    and the length 44. *)
Lemma demo_packet_parse (b0 b1 b2 b3 pad : byte) (ck trailer : list byte) :
  length ck = 16%nat ->
  be32 b0 b1 b2 b3 = 1 + sizeof (demo_payload ck) + byte_val pad ->
  ssh_packet_parse sizeof_pointer_LP64 (demo_packet b0 b1 b2 b3 pad ck trailer)
    (sizeof (demo_packet b0 b1 b2 b3 pad ck trailer)) None
    = Ok (44, Some Byte.x14).
Proof.
  intros Hck Hlen. rewrite demo_payload_size in Hlen by done.
  pose proof (byte_val_range pad). unfold demo_packet.
  assert (Hsize : sizeof_pointer_LP64
                  <= sizeof (b0 :: b1 :: b2 :: b3 :: pad ::
                             demo_payload ck ++ trailer)).
  { unfold sizeof_pointer_LP64, sizeof. cbn [length].
    rewrite length_app. pose proof (demo_payload_size ck Hck) as Hp.
    unfold sizeof in Hp. lia. }
  revert Hsize. generalize (sizeof (b0 :: b1 :: b2 :: b3 :: pad ::
                                    demo_payload ck ++ trailer)).
  intros datalen Hsize. unfold demo_payload. rewrite <- app_comm_cons.
  rewrite ssh_packet_parse_header by lia. do 2 f_equal. lia.
Qed.

(** The region handed to the decoder: the packet past the 6-byte header. *)
Lemma demo_packet_payload (b0 b1 b2 b3 pad : byte) (ck trailer : list byte) :
  drop (Z.to_nat sizeof_struct_ssh_packet)
    (demo_packet b0 b1 b2 b3 pad ck trailer)
  = ck ++ Byte.x00 :: Byte.x00 :: Byte.x00 :: Byte.x1b ::
      list_byte_of_string "diffie-hellman-group14-s" ++
      (list_byte_of_string "ha1" ++ trailer).
Proof.
  unfold demo_packet, demo_payload.
  change (Z.to_nat sizeof_struct_ssh_packet) with 6%nat.
  rewrite <- app_comm_cons, <- (app_assoc ck). reflexivity.
Qed.

(** C4 (the code departs from the claim): fed the banner chunk and then a
    KEXINIT packet framed as RFC 4253 prescribes, with [packet_length] equal
    to 1 + payload length + [padding_length], the accumulator stores the
    banner and the cookie, but the algorithm list it stores is cut short of
    the name-list.  The framer reports [packet_length - padding_length - 5],
    which is 44 for the 48-byte payload, so the decoder is left 24 bytes
    after the cookie and the length field and stores only the first 24 of
    the 27 bytes of the name-list, whatever the padding. *)
Theorem ssh_update_demo_truncated (s0 s : ssh) (b0 b1 b2 b3 pad : byte)
    (ck trailer : list byte) :
  ssh_init s0 = Ok s ->
  (12 < length (protocol s0))%nat ->
  length (cookie s0) = 16%nat ->
  (27 < length (host_key_algos s0))%nat ->
  length ck = 16%nat ->
  be32 b0 b1 b2 b3 = 1 + sizeof (demo_payload ck) + byte_val pad ->
  exists s' : ssh,
    ssh_update_all sizeof_pointer_LP64 s
      [(demo_banner, 1); (demo_packet b0 b1 b2 b3 pad ck trailer, 1)]
      = Ok s' /\
    ssh_role s' = role_client /\
    c_string (protocol s') = Some demo_banner /\
    cookie s' = ck /\
    c_string (host_key_algos s')
      = Some (list_byte_of_string "diffie-hellman-group14-s") /\
    c_string (host_key_algos s') <> Some demo_name_list.
Proof.
  intros Hinit Hproto Hcookie Halgos Hck Hlen.
  apply ssh_init_ok in Hinit as (Hrole & Hempty & Hplen & Hc & Ha).
  cbn [ssh_update_all].
  (* the banner chunk *)
  rewrite ssh_update_unknown_eq by done.
  assert (Hpp : printable_prefix demo_banner = demo_banner) by reflexivity.
  rewrite copy_printable_string_fits by (rewrite Hpp; cbn; lia).
  rewrite Hpp. cbn [mbind result_bind].
  set (p := demo_banner ++ Byte.x00 :: drop (S (length demo_banner)) (protocol s)).
  set (s1 := set_role (set_protocol s p) role_client).
  assert (Hknown : ssh_role s1 <> role_unknown) by done.
  rewrite (ssh_update_dropped _ _ _ _ _ None Hknown) by reflexivity.
  cbn [mbind result_bind].
  (* the KEXINIT packet *)
  rewrite ssh_update_known_eq; [|done| |done].
  2:{ unfold demo_packet, sizeof. cbn [length]. lia. }
  rewrite demo_packet_parse by done. cbn [mbind result_bind].
  change (44 =? 0) with false.
  change (byte_val Byte.x14 =? SSH_MSG_KEXINIT) with true. cbn match.
  rewrite demo_packet_payload.
  set (name24 := list_byte_of_string "diffie-hellman-group14-s").
  change 44 with (16 + 4 + sizeof name24).
  assert (Hck1 : length (cookie s1) = 16%nat).
  { cbn. by rewrite Hc, length_replicate. }
  rewrite ssh_parse_kexinit_name_list by done.
  rewrite copy_printable_string_spec. cbn zeta.
  assert (Hal : length (host_key_algos s1) = length (host_key_algos s0)).
  { cbn. by rewrite Ha, length_replicate. }
  change (printable_prefix name24) with name24.
  unfold sizeof. rewrite Nat2Z.id, Hal, Nat.min_r by (cbn; lia).
  rewrite decide_True by (cbn; lia). cbn [mbind result_bind].
  eexists. split; [reflexivity|].
  cbn [set_host_key_algos set_cookie set_role set_protocol ssh_role protocol
       cookie host_key_algos].
  assert (Hstr : c_string
            (take (length name24) name24 ++
             Byte.x00 :: drop (S (length name24)) (host_key_algos s1))
          = Some name24).
  { rewrite take_ge by done. apply c_string_printable.
    repeat constructor. }
  split; [done|]. split; [|split; [done|]].
  - subst s1 p. cbn [set_role set_protocol protocol].
    apply c_string_printable. repeat constructor.
  - rewrite Hstr. split; [done | discriminate].
Qed.

Lemma ssh_update_demo_truncated_witness :
  ssh_init demo_record = Ok demo_record /\
  (12 < length (protocol demo_record))%nat /\
  length (cookie demo_record) = 16%nat /\
  (27 < length (host_key_algos demo_record))%nat /\
  length demo_cookie = 16%nat /\
  be32 Byte.x00 Byte.x00 Byte.x00 Byte.x3c
    = 1 + sizeof (demo_payload demo_cookie) + byte_val Byte.x0b /\
  exists s' : ssh,
    ssh_update_all sizeof_pointer_LP64 demo_record
      [(demo_banner, 1);
       (demo_packet Byte.x00 Byte.x00 Byte.x00 Byte.x3c Byte.x0b demo_cookie
          (replicate 11 Byte.x00), 1)]
      = Ok s' /\
    ssh_role s' = role_client /\
    c_string (protocol s') = Some demo_banner /\
    cookie s' = demo_cookie /\
    c_string (host_key_algos s')
      = Some (list_byte_of_string "diffie-hellman-group14-s") /\
    c_string (host_key_algos s') <> Some demo_name_list.
Proof.
  split; [reflexivity|]. split; [cbn; lia|]. split; [reflexivity|].
  split; [cbn; lia|]. split; [reflexivity|]. split; [reflexivity|].
  apply (ssh_update_demo_truncated demo_record demo_record
           Byte.x00 Byte.x00 Byte.x00 Byte.x3c Byte.x0b demo_cookie
           (replicate 11 Byte.x00));
    [reflexivity | cbn; lia | reflexivity | cbn; lia | reflexivity
    | reflexivity].
Defined.

(** The whole name-list is stored when the payload goes on for at least
    three more bytes of which the first is not printable, as in a KEXINIT
    message that carries its further name-lists: here the payload is followed
    by an empty second name-list, [packet_length] is 60 and
    [padding_length] 7. *)
Lemma ssh_update_demo_longer_payload :
  ssh_update_all sizeof_pointer_LP64 demo_record
    [(demo_banner, 1);
     (demo_packet Byte.x00 Byte.x00 Byte.x00 Byte.x3c Byte.x07 demo_cookie
        ([Byte.x00; Byte.x00; Byte.x00; Byte.x00] ++ replicate 7 Byte.x00), 1)]
    = Ok (mk_ssh role_client (demo_banner ++ replicate 4 Byte.x00) demo_cookie
            (demo_name_list ++ replicate 5 Byte.x00)).
Proof. vm_compute. reflexivity. Qed.

(** ** Calls that return *)

(** A call returns whenever the banner array has room for the printable
    prefix of the chunk and its terminator, and the chunk does not carry the
    KEXINIT message code at offset 5: nothing is then accessed outside the
    chunk and the record. *)
Lemma ssh_update_returns (sizeof_pointer : Z) (s : ssh) (chunk : list byte)
    (flag : Z) :
  sizeof_struct_ssh_packet <= sizeof_pointer ->
  (length (printable_prefix chunk) < length (protocol s))%nat ->
  (forall c : byte, chunk !! 5%nat = Some c -> byte_val c <> SSH_MSG_KEXINIT) ->
  exists s' : ssh,
    ssh_update sizeof_pointer s chunk (sizeof chunk) flag = Ok s'.
Proof.
  unfold sizeof_struct_ssh_packet. intros Hp Hfit Hcode. unfold ssh_update.
  destruct (sizeof chunk =? 0); [by eexists|].
  destruct (flag =? 0); [by eexists|].
  set (banner := if decide (ssh_role s = role_unknown) then _ else _).
  assert (Hbanner : exists s1, banner = Ok s1).
  { subst banner. case_decide; [|by eexists]. unfold load.
    destruct (protocol s !! 0%nat) as [b|] eqn:Hb.
    - cbn [mbind result_bind]. destruct (byte_val b =? 0); [|by eexists].
      rewrite copy_printable_string_fits by done. by eexists.
    - apply lookup_ge_None in Hb. lia. }
  destruct Hbanner as [s1 ->]. cbn [mbind result_bind].
  unfold ssh_packet_parse.
  destruct (Z.ltb_spec (sizeof chunk) sizeof_pointer) as [|Hlen];
    [by eexists|].
  destruct chunk as [|b0 [|b1 [|b2 [|b3 [|b4 [|b5 rest]]]]]];
    try (unfold sizeof in Hlen; cbn [length] in Hlen; lia).
  rewrite ntohl_at_cons4. cbn [mbind result_bind].
  destruct (32768 <? be32 b0 b1 b2 b3); [by eexists|].
  cbn [load lookup list_lookup mbind result_bind].
  destruct (_ =? 0); [by eexists|].
  specialize (Hcode b5 eq_refl).
  destruct (Z.eqb_spec (byte_val b5) SSH_MSG_KEXINIT); [done | by eexists].
Qed.

(** The overflow of the copier is reached through [ssh_update]: a first
    chunk with as many leading printable bytes as the banner array has bytes
    makes the call write the terminator past the array. *)
Lemma ssh_update_banner_overflow (sizeof_pointer : Z) (s : ssh)
    (chunk : list byte) (flag : Z) :
  ssh_role s = role_unknown -> banner_empty s -> flag <> 0 ->
  (length (protocol s) <= length chunk)%nat ->
  Forall (fun b => isprint b = true) (take (length (protocol s)) chunk) ->
  ssh_update sizeof_pointer s chunk (sizeof chunk) flag
    = Fault OutOfBoundsWrite.
Proof.
  intros Hrole Hempty Hflag Hlen Hprint.
  assert (Hchunk : chunk <> []).
  { intros ->. unfold banner_empty in Hempty.
    destruct (protocol s); [done | cbn in Hlen; lia]. }
  rewrite ssh_update_unknown_eq by done.
  pose proof (take_while_at_least isprint chunk _ Hlen Hprint) as Hpp.
  fold (printable_prefix chunk) in Hpp.
  rewrite <- (app_nil_r chunk) at 1.
  rewrite copy_printable_string_spec. cbn zeta. unfold sizeof.
  rewrite Nat2Z.id, Nat.min_l by lia.
  by rewrite decide_False by lia.
Qed.

(** * Further properties of the code *)

(** ** The copier on arbitrary arguments *)

Lemma store_in_range (buf : list byte) (i : nat) (b : byte) :
  (i < length buf)%nat ->
  store buf i b = Ok (take i buf ++ b :: drop (S i) buf).
Proof.
  intros Hi. unfold store. rewrite decide_True by done.
  by rewrite insert_take_drop.
Qed.

(** The loop across a run [pre] of printable bytes for which the counters
    and the destination have room. *)
Lemma copy_loop_printable (n : nat) (datalen : Z) (buf : list byte) (i : nat)
    (pre tail : list byte) :
  Forall (fun b => isprint b = true) pre ->
  (length pre <= n)%nat -> sizeof pre <= datalen ->
  (i + length pre <= length buf)%nat ->
  copy_loop n datalen buf i (pre ++ tail) =
    copy_loop (n - length pre) (datalen - sizeof pre)
      (take i buf ++ pre ++ drop (i + length pre) buf) (i + length pre) tail.
Proof.
  intros Hpre. revert n datalen buf i.
  induction Hpre as [|c pre Hc _ IH]; intros n datalen buf i Hn Hd Hbuf.
  - cbn [length app]. unfold sizeof. cbn [length].
    rewrite Nat.sub_0_r, Nat.add_0_r, Z.sub_0_r, take_drop. done.
  - cbn [length] in Hn, Hbuf. unfold sizeof in Hd |- *. cbn [length] in Hd.
    destruct n as [|n]; [lia|]. cbn [copy_loop app length].
    destruct (Z.eqb_spec datalen 0); [lia|].
    cbn [load lookup list_lookup mbind result_bind]. rewrite Hc.
    rewrite store_in_range by lia. cbn [mbind result_bind skipn].
    assert (Hlen : length (take i buf ++ c :: drop (S i) buf) = length buf).
    { rewrite length_app, length_take. cbn [length]. rewrite length_drop.
      lia. }
    unfold sizeof in IH. rewrite IH by lia.
    replace (S n - S (length pre))%nat with (n - length pre)%nat by lia.
    replace (datalen - 1 - Z.of_nat (length pre))
      with (datalen - Z.of_nat (S (length pre))) by lia.
    replace (S i + length pre)%nat with (i + S (length pre))%nat by lia.
    f_equal.
    assert (Ht : i = length (take i buf)) by (rewrite length_take; lia).
    replace (S i) with (i + 1)%nat at 1 by lia.
    rewrite (take_app_add' (take i buf) _ i 1 Ht).
    rewrite (drop_app_add' (take i buf) _ i (S (length pre)) Ht).
    cbn [take firstn skipn]. rewrite take_0, drop_drop, <- app_assoc.
    cbn [app]. do 4 f_equal. lia.
Qed.

(** The copier across a run [pre] of printable bytes that the loop cannot
    extend: the capacity is used up, the declared length is used up, or the
    next byte is not printable. *)
Lemma copy_printable_string_run (buf : list byte) (buflen : Z)
    (pre tail : list byte) (datalen : Z) :
  Forall (fun b => isprint b = true) pre ->
  (length pre < length buf)%nat ->
  (length pre <= Z.to_nat buflen)%nat ->
  sizeof pre <= datalen ->
  Z.to_nat buflen = length pre \/ datalen = sizeof pre \/
    (exists (c : byte) (rest : list byte),
       tail = c :: rest /\ isprint c = false) ->
  copy_printable_string buf buflen (pre ++ tail) datalen
    = Ok (pre ++ Byte.x00 :: drop (S (length pre)) buf).
Proof.
  intros Hpre Hbuf Hcap Hlen Hstop. unfold copy_printable_string.
  rewrite copy_loop_printable by (done || cbn; lia).
  rewrite take_0. cbn [Nat.add app].
  assert (Hloop : copy_loop (Z.to_nat buflen - length pre)
                    (datalen - sizeof pre) (pre ++ drop (length pre) buf)
                    (length pre) tail
                  = Ok (pre ++ drop (length pre) buf, length pre)).
  { destruct Hstop as [Hs|[Hs|(c & rest & -> & Hc)]].
    - by rewrite Hs, Nat.sub_diag.
    - rewrite Hs, Z.sub_diag. by destruct (_ - _)%nat.
    - destruct (_ - _)%nat; [done|]. cbn [copy_loop].
      destruct (_ =? 0); [done|].
      cbn [load lookup list_lookup mbind result_bind]. by rewrite Hc. }
  rewrite Hloop. cbn [mbind result_bind].
  rewrite store_in_range by (rewrite length_app, length_drop; lia).
  rewrite take_app_length.
  replace (S (length pre)) with (length pre + 1)%nat at 1 by lia.
  rewrite drop_app_add, drop_drop. by rewrite Nat.add_1_r.
Qed.

(** What the loop has done when it returns. *)
Lemma copy_loop_inv (n : nat) (datalen : Z) (buf : list byte) (i : nat)
    (d buf' : list byte) (j : nat) :
  (i <= length buf)%nat ->
  copy_loop n datalen buf i d = Ok (buf', j) ->
  exists pre : list byte,
    j = (i + length pre)%nat /\ (j <= length buf)%nat /\
    buf' = take i buf ++ pre ++ drop j buf /\
    Forall (fun b => isprint b = true) pre /\
    pre `prefix_of` d /\ (length pre <= n)%nat.
Proof.
  revert datalen buf i d. induction n as [|n IH]; intros datalen buf i d Hi.
  - intros [= <- <-]. exists []. rewrite Nat.add_0_r. cbn [app].
    rewrite take_drop. split_and!; [done.. | constructor | apply prefix_nil | done].
  - cbn [copy_loop].
    assert (Hstop : exists pre : list byte,
              i = (i + length pre)%nat /\ (i <= length buf)%nat /\
              buf = take i buf ++ pre ++ drop i buf /\
              Forall (fun b => isprint b = true) pre /\
              pre `prefix_of` d /\ (length pre <= S n)%nat).
    { exists []. cbn [app length]. rewrite take_drop.
      split_and!; [lia | done | done | constructor | apply prefix_nil | lia]. }
    destruct (datalen =? 0); [by intros [= <- <-]|].
    destruct d as [|c d]; [done|].
    cbn [load lookup list_lookup mbind result_bind].
    destruct (isprint c) eqn:Hc; [|by intros [= <- <-]].
    unfold store. case_decide as Hlt; [|done]. cbn [mbind result_bind skipn].
    rewrite insert_take_drop by done. intros Hrun.
    apply IH in Hrun as (pre & -> & Hj & -> & Hpre & Hpfx & Hn).
    2:{ rewrite length_app, length_take. cbn [length].
        rewrite length_drop. lia. }
    assert (Hlen : length (take i buf ++ c :: drop (S i) buf) = length buf).
    { rewrite length_app, length_take. cbn [length]. rewrite length_drop.
      lia. }
    rewrite Hlen in Hj. exists (c :: pre). cbn [length].
    split_and!; [lia | lia | | by constructor | by apply prefix_cons | lia].
    assert (Ht : i = length (take i buf)) by (rewrite length_take; lia).
    replace (S i) with (i + 1)%nat at 1 by lia.
    rewrite (take_app_add' (take i buf) _ i 1 Ht).
    replace (S i + length pre)%nat with (i + S (length pre))%nat by lia.
    rewrite (drop_app_add' (take i buf) _ i (S (length pre)) Ht).
    cbn [take firstn skipn]. rewrite take_0, drop_drop, <- app_assoc.
    cbn [app]. do 4 f_equal. lia.
Qed.

(** What the copier has done when it returns: a run [p] of printable bytes
    from the start of the source, a NUL after it, and the rest of the
    destination as it was. *)
Lemma copy_printable_string_post (buf : list byte) (buflen : Z)
    (data : list byte) (datalen : Z) (buf' : list byte) :
  copy_printable_string buf buflen data datalen = Ok buf' ->
  exists p : list byte,
    buf' = p ++ Byte.x00 :: drop (S (length p)) buf /\
    (length p < length buf)%nat /\
    Forall (fun b => isprint b = true) p /\
    p `prefix_of` data /\ (length p <= Z.to_nat buflen)%nat.
Proof.
  unfold copy_printable_string.
  destruct (copy_loop _ _ _ _ _) as [[buf1 j]|] eqn:Hloop; [|done].
  cbn [mbind result_bind]. unfold store. case_decide as Hj; [|done].
  intros [= <-].
  apply copy_loop_inv in Hloop as (p & -> & Hle & -> & Hp & Hpfx & Hn);
    [|lia].
  rewrite take_0 in *. cbn [Nat.add app] in *.
  rewrite length_app, length_drop in Hj.
  exists p. split_and!; [|lia|done..].
  rewrite insert_app_r_alt by lia. rewrite Nat.sub_diag. f_equal.
  destruct (drop (length p) buf) as [|x tl] eqn:Hd.
  - apply (f_equal length) in Hd. rewrite length_drop in Hd. cbn in Hd. lia.
  - cbn. f_equal. change tl with (drop 1 (x :: tl)).
    rewrite <- Hd, drop_drop. f_equal. lia.
Qed.

Lemma printable_string_intro (p rest : list byte) :
  Forall (fun b => isprint b = true) p ->
  printable_string (p ++ Byte.x00 :: rest).
Proof. intros Hp. exists p. split; [by apply c_string_printable | done]. Qed.

(** Closed side conditions of the examples. *)
Ltac calc :=
  solve [ reflexivity
        | unfold sizeof; cbn; lia
        | vm_compute; first [reflexivity | discriminate | lia] ].

(** X1: on a source that starts with a run of printable bytes shorter than
    the destination, the copier stores exactly that run and a NUL after it,
    and leaves the rest of the destination as it was, whenever the run is
    ended by the capacity, by the declared length or by a byte that is not
    printable.  Nothing after the stopping point is read: the source region
    may end there, whatever [datalen] says. *)
Theorem copy_printable_string_stops (buf : list byte) (buflen : Z)
    (pre tail : list byte) (datalen : Z) :
  Forall (fun b => isprint b = true) pre ->
  (length pre < length buf)%nat ->
  (length pre <= Z.to_nat buflen)%nat ->
  sizeof pre <= datalen ->
  Z.to_nat buflen = length pre \/ datalen = sizeof pre \/
    (exists (c : byte) (rest : list byte),
       tail = c :: rest /\ isprint c = false) ->
  copy_printable_string buf buflen (pre ++ tail) datalen
    = Ok (pre ++ Byte.x00 :: drop (S (length pre)) buf).
Proof. apply copy_printable_string_run. Qed.

Lemma copy_printable_string_stops_witness :
  Forall (fun b => isprint b = true) [Byte.x61; Byte.x62] /\
  (length [Byte.x61; Byte.x62] < length (replicate 4 Byte.xff))%nat /\
  (length [Byte.x61; Byte.x62] <= Z.to_nat 4)%nat /\
  sizeof [Byte.x61; Byte.x62] <= 100 /\
  (Z.to_nat 4 = length [Byte.x61; Byte.x62] \/
   100 = sizeof [Byte.x61; Byte.x62] \/
   exists (c : byte) (rest : list byte),
     [Byte.x0a] = c :: rest /\ isprint c = false) /\
  copy_printable_string (replicate 4 Byte.xff) 4
    ([Byte.x61; Byte.x62] ++ [Byte.x0a]) 100
    = Ok [Byte.x61; Byte.x62; Byte.x00; Byte.xff].
Proof.
  assert (H1 : Forall (fun b => isprint b = true) [Byte.x61; Byte.x62])
    by (repeat constructor).
  assert (H5 : Z.to_nat 4 = length [Byte.x61; Byte.x62] \/
               100 = sizeof [Byte.x61; Byte.x62] \/
               exists (c : byte) (rest : list byte),
                 [Byte.x0a] = c :: rest /\ isprint c = false).
  { right. right. exists Byte.x0a, []. split; reflexivity. }
  split; [exact H1|]. split; [calc|]. split; [calc|].
  split; [calc|]. split; [exact H5|].
  apply (copy_printable_string_stops (replicate 4 Byte.xff) 4
           [Byte.x61; Byte.x62] [Byte.x0a] 100 H1);
    [calc | calc | calc | exact H5].
Defined.

(** X2: whenever the copier returns, whatever its arguments, the
    destination has kept its size and holds a terminated string [p] of
    printable bytes; [p] is a prefix of the source no longer than [buflen],
    and the bytes after the terminator are as they were. *)
Theorem copy_printable_string_returns (buf : list byte) (buflen : Z)
    (data : list byte) (datalen : Z) (buf' : list byte) :
  copy_printable_string buf buflen data datalen = Ok buf' ->
  length buf' = length buf /\
  exists p : list byte,
    c_string buf' = Some p /\
    Forall (fun b => isprint b = true) p /\
    p `prefix_of` data /\
    (length p <= Z.to_nat buflen)%nat /\
    drop (S (length p)) buf' = drop (S (length p)) buf.
Proof.
  intros Hcopy.
  apply copy_printable_string_post in Hcopy
    as (p & -> & Hlt & Hp & Hpfx & Hcap).
  split.
  - rewrite length_app. cbn [length]. rewrite length_drop. lia.
  - exists p. split_and!; [by apply c_string_printable | done.. |].
    replace (S (length p)) with (length p + 1)%nat at 1 by lia.
    by rewrite drop_app_add.
Qed.

Lemma copy_printable_string_returns_witness :
  copy_printable_string (replicate 4 Byte.xff) 4
    [Byte.x61; Byte.x62; Byte.x0a; Byte.x63] 4
    = Ok [Byte.x61; Byte.x62; Byte.x00; Byte.xff] /\
  length [Byte.x61; Byte.x62; Byte.x00; Byte.xff]
    = length (replicate 4 Byte.xff) /\
  exists p : list byte,
    c_string [Byte.x61; Byte.x62; Byte.x00; Byte.xff] = Some p /\
    Forall (fun b => isprint b = true) p /\
    p `prefix_of` [Byte.x61; Byte.x62; Byte.x0a; Byte.x63] /\
    (length p <= Z.to_nat 4)%nat /\
    drop (S (length p)) [Byte.x61; Byte.x62; Byte.x00; Byte.xff]
      = drop (S (length p)) (replicate 4 Byte.xff).
Proof.
  split; [reflexivity|].
  apply (copy_printable_string_returns (replicate 4 Byte.xff) 4
           [Byte.x61; Byte.x62; Byte.x0a; Byte.x63] 4).
  reflexivity.
Defined.

(** X3: with a capacity of 0 or a declared length of 0 the copier reads no
    source byte and still writes the terminator at index 0: a destination of
    at least one byte gets a NUL in its first byte and keeps the others, and
    a destination of no byte at all is written out of bounds. *)
Theorem copy_printable_string_nothing_to_copy (buf : list byte) (buflen : Z)
    (data : list byte) (datalen : Z) :
  buflen = 0 \/ datalen = 0 ->
  copy_printable_string buf buflen data datalen =
    match buf with
    | [] => Fault OutOfBoundsWrite
    | _ :: t => Ok (Byte.x00 :: t)
    end.
Proof.
  intros Hzero. unfold copy_printable_string.
  assert (Hloop : copy_loop (Z.to_nat buflen) datalen buf 0 data
                  = Ok (buf, 0%nat)).
  { destruct Hzero as [-> | ->]; [done|]. by destruct (Z.to_nat buflen). }
  rewrite Hloop. cbn [mbind result_bind]. by destruct buf.
Qed.

Lemma copy_printable_string_nothing_to_copy_witness :
  (0 = 0 \/ 7 = 0) /\
  copy_printable_string [Byte.xff; Byte.xee] 0 NULL 7
    = Ok [Byte.x00; Byte.xee].
Proof.
  split; [left; reflexivity|].
  apply (copy_printable_string_nothing_to_copy [Byte.xff; Byte.xee] 0 NULL 7).
  left; reflexivity.
Defined.

(** X4: a source region that ends before the declared length, holds only
    printable bytes and fits the capacity and the destination is read past
    its end.  This is the case of a null source with a non-zero length. *)
Theorem copy_printable_string_overread (buf : list byte) (buflen : Z)
    (data : list byte) (datalen : Z) :
  Forall (fun b => isprint b = true) data ->
  sizeof data < datalen ->
  (length data < Z.to_nat buflen)%nat ->
  (length data <= length buf)%nat ->
  copy_printable_string buf buflen data datalen = Fault OutOfBoundsRead.
Proof.
  intros Hdata Hlen Hcap Hbuf. unfold copy_printable_string.
  rewrite <- (app_nil_r data).
  rewrite copy_loop_printable by (done || cbn; lia).
  destruct (Z.to_nat buflen - length data)%nat as [|n] eqn:Hn; [lia|].
  cbn [copy_loop]. destruct (Z.eqb_spec (datalen - sizeof data) 0); [lia|].
  done.
Qed.

Lemma copy_printable_string_overread_witness :
  Forall (fun b => isprint b = true) NULL /\
  sizeof NULL < 1 /\
  (length NULL < Z.to_nat 8)%nat /\
  (length NULL <= length (replicate 8 Byte.x00))%nat /\
  copy_printable_string (replicate 8 Byte.x00) 8 NULL 1
    = Fault OutOfBoundsRead.
Proof.
  split; [constructor|]. split; [calc|]. split; [calc|].
  split; [calc|].
  apply (copy_printable_string_overread (replicate 8 Byte.x00) 8 NULL 1);
    [constructor | calc | calc | calc].
Defined.

(** ** The framer: bounds and results *)

Lemma u32_cases (len pad : Z) :
  0 <= len <= 32768 -> 0 <= pad <= 255 ->
  (pad + 5 <= len /\ u32 (len - pad - 5) = len - pad - 5) \/
  (len < pad + 5 /\ u32 (len - pad - 5) = 2 ^ 32 + len - pad - 5).
Proof.
  intros Hlen Hpad. unfold u32.
  destruct (Z_le_gt_dec (pad + 5) len) as [Hle|Hgt]; [left|right].
  - split; [done|]. apply Z.mod_small. lia.
  - split; [lia|]. symmetry. apply Z.mod_unique with (q := -1); lia.
Qed.

(** X5: where a data pointer has at least the 6 bytes of the header, the
    framer stays within a buffer that holds the [datalen] bytes it is told
    of: it returns, and returns the same when the buffer is cut after its
    sixth byte, so no byte beyond the header is read. *)
Theorem ssh_packet_parse_in_bounds (sizeof_pointer : Z) (pkt : list byte)
    (datalen : Z) (msg_code : option byte) :
  sizeof_struct_ssh_packet <= sizeof_pointer ->
  datalen <= sizeof pkt ->
  exists r : Z * option byte,
    ssh_packet_parse sizeof_pointer pkt datalen msg_code = Ok r /\
    ssh_packet_parse sizeof_pointer (take 6 pkt) datalen msg_code = Ok r.
Proof.
  unfold sizeof_struct_ssh_packet. intros Hp Hlen. unfold ssh_packet_parse.
  destruct (Z.ltb_spec datalen sizeof_pointer); [by eexists|].
  destruct pkt as [|b0 [|b1 [|b2 [|b3 [|b4 [|b5 rest]]]]]];
    try (unfold sizeof in Hlen; cbn [length] in Hlen; lia).
  cbn [take firstn]. rewrite !ntohl_at_cons4. cbn [mbind result_bind].
  destruct (32768 <? be32 b0 b1 b2 b3); by eexists.
Qed.

Lemma ssh_packet_parse_in_bounds_witness :
  sizeof_struct_ssh_packet <= sizeof_pointer_LP64 /\
  8 <= sizeof [Byte.x00; Byte.x00; Byte.x00; Byte.x0c; Byte.x04; Byte.x14;
               Byte.x61; Byte.x62] /\
  exists r : Z * option byte,
    ssh_packet_parse sizeof_pointer_LP64
      [Byte.x00; Byte.x00; Byte.x00; Byte.x0c; Byte.x04; Byte.x14;
       Byte.x61; Byte.x62] 8 None = Ok r /\
    ssh_packet_parse sizeof_pointer_LP64
      (take 6 [Byte.x00; Byte.x00; Byte.x00; Byte.x0c; Byte.x04; Byte.x14;
               Byte.x61; Byte.x62]) 8 None = Ok r.
Proof.
  split; [calc|]. split; [calc|].
  apply ssh_packet_parse_in_bounds; calc.
Defined.

(** X6: with 4-byte pointers the size test lets buffers of 4 and 5 bytes
    through, and unless the length field exceeds 32768 the framer then reads
    the message code at offset 5, past the end of the buffer. *)
Theorem ssh_packet_parse_ILP32_overread (b0 b1 b2 b3 : byte)
    (rest : list byte) (msg_code : option byte) :
  (length rest <= 1)%nat ->
  be32 b0 b1 b2 b3 <= 32768 ->
  ssh_packet_parse sizeof_pointer_ILP32 (b0 :: b1 :: b2 :: b3 :: rest)
    (sizeof (b0 :: b1 :: b2 :: b3 :: rest)) msg_code
    = Fault OutOfBoundsRead.
Proof.
  intros Hrest Hlen. unfold ssh_packet_parse, sizeof_pointer_ILP32.
  destruct (Z.ltb_spec (sizeof (b0 :: b1 :: b2 :: b3 :: rest)) 4) as [Hlt|_].
  { unfold sizeof in Hlt. cbn [length] in Hlt. lia. }
  rewrite ntohl_at_cons4. cbn [mbind result_bind].
  destruct (Z.ltb_spec 32768 (be32 b0 b1 b2 b3)); [lia|].
  by destruct rest as [|b4 [|b5 rest]]; [..|cbn in Hrest; lia].
Qed.

Lemma ssh_packet_parse_ILP32_overread_witness :
  (length [Byte.x04] <= 1)%nat /\
  be32 Byte.x00 Byte.x00 Byte.x00 Byte.x0c <= 32768 /\
  ssh_packet_parse sizeof_pointer_ILP32
    [Byte.x00; Byte.x00; Byte.x00; Byte.x0c; Byte.x04] 5 None
    = Fault OutOfBoundsRead.
Proof.
  split; [calc|]. split; [calc|].
  apply (ssh_packet_parse_ILP32_overread Byte.x00 Byte.x00 Byte.x00 Byte.x0c
           [Byte.x04] None); calc.
Defined.

(** X7: the length the framer returns is 0, or at most 32763, or, when the
    subtraction has wrapped around, at least [2 ^ 32 - 260]; and whenever it
    is not 0 the message code has been set to the byte at offset 5. *)
Theorem ssh_packet_parse_range (sizeof_pointer : Z) (pkt : list byte)
    (datalen : Z) (msg_code msg_code' : option byte) (length : Z) :
  ssh_packet_parse sizeof_pointer pkt datalen msg_code
    = Ok (length, msg_code') ->
  (length = 0 \/ 0 < length <= 32763 \/ 2 ^ 32 - 260 <= length < 2 ^ 32) /\
  (length <> 0 ->
   exists c : byte, pkt !! 5%nat = Some c /\ msg_code' = Some c).
Proof.
  unfold ssh_packet_parse.
  destruct (datalen <? sizeof_pointer); [intros [= <- <-]; split; auto; done|].
  unfold ntohl_at, load.
  destruct (pkt !! 0%nat) as [b0|]; [|done].
  destruct (pkt !! (0 + 1)%nat) as [b1|]; [|done].
  destruct (pkt !! (0 + 2)%nat) as [b2|]; [|done].
  destruct (pkt !! (0 + 3)%nat) as [b3|]; [|done].
  cbn [mbind result_bind].
  destruct (Z.ltb_spec 32768 (be32 b0 b1 b2 b3));
    [intros [= <- <-]; split; auto; done|].
  destruct (pkt !! 5%nat) as [c|]; [|done].
  destruct (pkt !! 4%nat) as [pad|]; [|done].
  cbn [mbind result_bind]. intros [= <- <-].
  pose proof (be32_range b0 b1 b2 b3). pose proof (byte_val_range pad).
  split; [|by eexists].
  destruct (u32_cases (be32 b0 b1 b2 b3) (byte_val pad)) as [[? ->]|[? ->]];
    lia.
Qed.

Lemma ssh_packet_parse_range_witness :
  ssh_packet_parse sizeof_pointer_LP64
    [Byte.x00; Byte.x00; Byte.x00; Byte.x0c; Byte.x04; Byte.x14;
     Byte.x61; Byte.x62] 8 None = Ok (3, Some Byte.x14) /\
  (3 = 0 \/ 0 < 3 <= 32763 \/ 2 ^ 32 - 260 <= 3 < 2 ^ 32) /\
  (3 <> 0 ->
   exists c : byte,
     [Byte.x00; Byte.x00; Byte.x00; Byte.x0c; Byte.x04; Byte.x14;
      Byte.x61; Byte.x62] !! 5%nat = Some c /\ Some Byte.x14 = Some c).
Proof.
  split; [reflexivity|].
  apply (ssh_packet_parse_range sizeof_pointer_LP64
           [Byte.x00; Byte.x00; Byte.x00; Byte.x0c; Byte.x04; Byte.x14;
            Byte.x61; Byte.x62] 8 None (Some Byte.x14) 3).
  reflexivity.
Defined.

(** ** The KEXINIT decoder: what it keeps and what it ignores *)

(** What a decode that returns has done to the record. *)
Lemma ssh_parse_kexinit_inv (s s' : ssh) (data : list byte) (datalen : Z) :
  ssh_parse_kexinit s data datalen = Ok s' ->
  ssh_role s' = ssh_role s /\ protocol s' = protocol s /\
  ((datalen < 16 /\ s' = s) \/
   (16 <= datalen /\ (16 <= length data)%nat /\
    (16 <= length (cookie s))%nat /\
    cookie s' = take 16 data ++ drop 16 (cookie s) /\
    (host_key_algos s' = host_key_algos s \/
     exists (buflen dl : Z) (d : list byte),
       copy_printable_string (host_key_algos s) buflen d dl
         = Ok (host_key_algos s')))).
Proof.
  unfold ssh_parse_kexinit.
  destruct (Z.ltb_spec datalen 16).
  { intros [= <-]. split_and!; [done..|]. by left. }
  unfold memcpy. repeat case_decide; try done. cbn [mbind result_bind].
  assert (Hbase : forall algos : list byte,
            (algos = host_key_algos s \/
             exists (buflen dl : Z) (d : list byte),
               copy_printable_string (host_key_algos s) buflen d dl
                 = Ok algos) ->
            Ok (mk_ssh (ssh_role s) (protocol s)
                  (take 16 data ++ drop 16 (cookie s)) algos) = Ok s' ->
            ssh_role s' = ssh_role s /\ protocol s' = protocol s /\
            ((datalen < 16 /\ s' = s) \/
             (16 <= datalen /\ (16 <= length data)%nat /\
              (16 <= length (cookie s))%nat /\
              cookie s' = take 16 data ++ drop 16 (cookie s) /\
              (host_key_algos s' = host_key_algos s \/
               exists (buflen dl : Z) (d : list byte),
                 copy_printable_string (host_key_algos s) buflen d dl
                   = Ok (host_key_algos s'))))).
  { intros algos Halgos [= <-]. split_and!; [done..|]. right.
    split_and!; [lia | lia | lia | done | done]. }
  destruct (datalen - 16 <? 4); [by apply Hbase; left|].
  destruct (decode_uint32 _) as [n|]; [|done]. cbn [mbind result_bind].
  destruct (n =? 0); [by apply Hbase; left|].
  cbn [set_cookie host_key_algos].
  destruct (copy_printable_string _ _ _ _) as [a|] eqn:Hcopy; [|done].
  cbn [mbind result_bind]. apply Hbase. right. eauto.
Qed.

Lemma ssh_parse_kexinit_same_sizes (s s' : ssh) (data : list byte)
    (datalen : Z) :
  ssh_parse_kexinit s data datalen = Ok s' -> same_sizes s s'.
Proof.
  intros Hk. apply ssh_parse_kexinit_inv in Hk as (_ & Hp & Hcases).
  unfold same_sizes. rewrite Hp.
  destruct Hcases as [[_ ->]|(_ & Hd & Hc & -> & Ha)]; [done|].
  split_and!; [done| |].
  - rewrite length_app, length_take, length_drop. lia.
  - destruct Ha as [->|(buflen & dl & d & Hcopy)]; [done|].
    apply copy_printable_string_post in Hcopy as (p & -> & Hlt & _).
    rewrite length_app. cbn [length]. rewrite length_drop. lia.
Qed.

Lemma ssh_parse_kexinit_coherent (s s' : ssh) (data : list byte)
    (datalen : Z) :
  ssh_parse_kexinit s data datalen = Ok s' -> coherent s -> coherent s'.
Proof.
  intros Hk (Hproto & Halgos & Hcookie).
  pose proof (ssh_parse_kexinit_same_sizes _ _ _ _ Hk) as (_ & Hc & _).
  apply ssh_parse_kexinit_inv in Hk as (_ & Hp & Hcases).
  unfold coherent. rewrite Hp, Hc. split_and!; [done| |done].
  destruct Hcases as [[_ ->]|(_ & _ & _ & _ & Ha)]; [done|].
  destruct Ha as [->|(buflen & dl & d & Hcopy)]; [done|].
  apply copy_printable_string_post in Hcopy as (p & -> & _ & Hprint & _).
  by apply printable_string_intro.
Qed.

(** X8: a decode that returns leaves the role and the banner as they were
    and keeps the sizes of the three arrays. *)
Theorem ssh_parse_kexinit_keeps (s s' : ssh) (data : list byte)
    (datalen : Z) :
  ssh_parse_kexinit s data datalen = Ok s' ->
  ssh_role s' = ssh_role s /\ protocol s' = protocol s /\ same_sizes s s'.
Proof.
  intros Hk. pose proof (ssh_parse_kexinit_same_sizes _ _ _ _ Hk).
  apply ssh_parse_kexinit_inv in Hk as (Hr & Hp & _). done.
Qed.

Lemma ssh_parse_kexinit_keeps_witness :
  ssh_parse_kexinit demo_record_banner
    (demo_cookie ++ [Byte.x00; Byte.x00; Byte.x00; Byte.x05] ++
     list_byte_of_string "ssh-x") 25
    = Ok (mk_ssh role_client (demo_banner ++ replicate 4 Byte.x00)
            demo_cookie
            (list_byte_of_string "ssh-x" ++ replicate 27 Byte.x00)) /\
  ssh_role (mk_ssh role_client (demo_banner ++ replicate 4 Byte.x00)
              demo_cookie
              (list_byte_of_string "ssh-x" ++ replicate 27 Byte.x00))
    = ssh_role demo_record_banner /\
  protocol (mk_ssh role_client (demo_banner ++ replicate 4 Byte.x00)
              demo_cookie
              (list_byte_of_string "ssh-x" ++ replicate 27 Byte.x00))
    = protocol demo_record_banner /\
  same_sizes demo_record_banner
    (mk_ssh role_client (demo_banner ++ replicate 4 Byte.x00) demo_cookie
       (list_byte_of_string "ssh-x" ++ replicate 27 Byte.x00)).
Proof.
  split; [reflexivity|].
  apply (ssh_parse_kexinit_keeps demo_record_banner _
           (demo_cookie ++ [Byte.x00; Byte.x00; Byte.x00; Byte.x05] ++
            list_byte_of_string "ssh-x") 25).
  reflexivity.
Defined.

(** X9: the length that the name-list declares is tested for zero and
    otherwise ignored: two payloads that differ only in a non-zero length
    field are decoded alike, so the copy is bounded by [datalen] and the
    size of the array, never by the declared length. *)
Theorem ssh_parse_kexinit_length_ignored (s : ssh) (ck : list byte)
    (n0 n1 n2 n3 m0 m1 m2 m3 : byte) (tail : list byte) (datalen : Z) :
  length ck = 16%nat ->
  be32 n0 n1 n2 n3 <> 0 -> be32 m0 m1 m2 m3 <> 0 ->
  ssh_parse_kexinit s (ck ++ n0 :: n1 :: n2 :: n3 :: tail) datalen
    = ssh_parse_kexinit s (ck ++ m0 :: m1 :: m2 :: m3 :: tail) datalen.
Proof.
  intros Hck Hn Hm. unfold ssh_parse_kexinit.
  destruct (datalen <? 16); [done|]. unfold memcpy.
  rewrite !length_app, Hck. cbn [length].
  rewrite !(take_app_length' ck _ 16), !(drop_app_length' ck _ 16) by done.
  repeat case_decide; try done. cbn [mbind result_bind].
  destruct (datalen - 16 <? 4); [done|].
  unfold decode_uint32. rewrite !ntohl_at_cons4. cbn [mbind result_bind].
  destruct (Z.eqb_spec (be32 n0 n1 n2 n3) 0); [done|].
  destruct (Z.eqb_spec (be32 m0 m1 m2 m3) 0); [done|].
  done.
Qed.

Lemma ssh_parse_kexinit_length_ignored_witness :
  length demo_cookie = 16%nat /\
  be32 Byte.x00 Byte.x00 Byte.x00 Byte.x01 <> 0 /\
  be32 Byte.xff Byte.xff Byte.xff Byte.xff <> 0 /\
  ssh_parse_kexinit demo_record
    (demo_cookie ++ Byte.x00 :: Byte.x00 :: Byte.x00 :: Byte.x01 ::
     list_byte_of_string "ssh-x") 25
    = ssh_parse_kexinit demo_record
        (demo_cookie ++ Byte.xff :: Byte.xff :: Byte.xff :: Byte.xff ::
         list_byte_of_string "ssh-x") 25.
Proof.
  split; [calc|]. split; [calc|]. split; [calc|].
  apply ssh_parse_kexinit_length_ignored; calc.
Defined.

(** X10: the cookie is not kept from the first KEXINIT: each decode that
    gets 16 bytes overwrites it, so after two decodes that return the cookie
    is the first 16 bytes of the second payload. *)
Theorem ssh_parse_kexinit_overwrites (s s1 s2 : ssh) (d1 d2 : list byte)
    (n1 n2 : Z) :
  length (cookie s) = 16%nat ->
  ssh_parse_kexinit s d1 n1 = Ok s1 ->
  ssh_parse_kexinit s1 d2 n2 = Ok s2 ->
  16 <= n2 ->
  cookie s2 = take 16 d2.
Proof.
  intros Hc H1 H2 Hn.
  pose proof (ssh_parse_kexinit_same_sizes _ _ _ _ H1) as (_ & Hc1 & _).
  apply ssh_parse_kexinit_inv in H2 as (_ & _ & [[? _]|(_ & _ & _ & -> & _)]);
    [lia|].
  rewrite drop_ge, app_nil_r by lia. done.
Qed.

Lemma ssh_parse_kexinit_overwrites_witness :
  length (cookie demo_record) = 16%nat /\
  ssh_parse_kexinit demo_record demo_cookie 16
    = Ok (set_cookie demo_record demo_cookie) /\
  ssh_parse_kexinit (set_cookie demo_record demo_cookie)
    (replicate 16 Byte.x41) 16
    = Ok (set_cookie demo_record (replicate 16 Byte.x41)) /\
  16 <= 16 /\
  cookie (set_cookie demo_record (replicate 16 Byte.x41))
    = take 16 (replicate 16 Byte.x41).
Proof.
  split; [calc|]. split; [reflexivity|]. split; [reflexivity|].
  split; [lia|].
  apply (ssh_parse_kexinit_overwrites demo_record
           (set_cookie demo_record demo_cookie) _ demo_cookie
           (replicate 16 Byte.x41) 16 16); calc.
Defined.

(** ** Initialisation *)

Lemma ssh_init_coherent (s0 s : ssh) :
  ssh_init s0 = Ok s -> length (cookie s0) = 16%nat ->
  host_key_algos s0 <> [] ->
  coherent s /\ same_sizes s0 s.
Proof.
  intros Hinit Hc Ha.
  apply ssh_init_ok in Hinit as (_ & Hempty & Hlen & Hck & Hal).
  unfold coherent, same_sizes. rewrite Hck, Hal, !length_replicate.
  split_and!; try done.
  - unfold banner_empty in Hempty.
    destruct (protocol s) as [|b p]; [done|]. injection Hempty as ->.
    exists []. split; [done | constructor].
  - destruct (host_key_algos s0) as [|b a]; [done|].
    exists []. split; [done | constructor].
Qed.

(** X11: on a record whose banner array is not empty [ssh_init] returns a
    record with unknown role, an empty banner string, an all-zero cookie and
    an all-zero algorithm list, with the array sizes kept.  Only the first
    byte of the banner array is cleared, the bytes after it stay, and a
    second [ssh_init] changes nothing more. *)
Theorem ssh_init_resets (s0 : ssh) :
  protocol s0 <> [] ->
  exists s : ssh,
    ssh_init s0 = Ok s /\
    ssh_role s = role_unknown /\
    c_string (protocol s) = Some [] /\
    drop 1 (protocol s) = drop 1 (protocol s0) /\
    cookie s = replicate (length (cookie s0)) Byte.x00 /\
    host_key_algos s = replicate (length (host_key_algos s0)) Byte.x00 /\
    same_sizes s0 s /\
    ssh_init s = Ok s.
Proof.
  intros Hp. destruct s0 as [r [|b p] c a]; [done|].
  eexists. split; [reflexivity|]. cbn [ssh_role protocol cookie
    host_key_algos]. unfold same_sizes, memset_all.
  cbn [protocol cookie host_key_algos]. rewrite !length_replicate.
  split_and!; try done.
  unfold ssh_init. cbn [protocol cookie host_key_algos].
  unfold memset_all. by rewrite !length_replicate.
Qed.

Lemma ssh_init_resets_witness :
  protocol demo_record_banner <> [] /\
  exists s : ssh,
    ssh_init demo_record_banner = Ok s /\
    ssh_role s = role_unknown /\
    c_string (protocol s) = Some [] /\
    drop 1 (protocol s) = drop 1 (protocol demo_record_banner) /\
    cookie s = replicate (length (cookie demo_record_banner)) Byte.x00 /\
    host_key_algos s
      = replicate (length (host_key_algos demo_record_banner)) Byte.x00 /\
    same_sizes demo_record_banner s /\
    ssh_init s = Ok s.
Proof.
  split; [discriminate|].
  apply (ssh_init_resets demo_record_banner). discriminate.
Defined.

(** ** The accumulator: frames, faults and invariants *)

Lemma sizeof_at_least_6 (chunk : list byte) :
  6 <= sizeof chunk ->
  exists (b0 b1 b2 b3 b4 b5 : byte) (rest : list byte),
    chunk = b0 :: b1 :: b2 :: b3 :: b4 :: b5 :: rest.
Proof.
  unfold sizeof. intros Hlen.
  destruct chunk as [|b0 [|b1 [|b2 [|b3 [|b4 [|b5 rest]]]]]];
    cbn [length] in Hlen; try lia.
  by repeat eexists.
Qed.

(** X12: once the role is known, a chunk that does not carry the KEXINIT
    message code at offset 5 leaves the record as it is, whatever else it
    holds, wherever a data pointer has at least 6 bytes. *)
Theorem ssh_update_other_message (sizeof_pointer : Z) (s : ssh)
    (chunk : list byte) (flag : Z) :
  sizeof_struct_ssh_packet <= sizeof_pointer ->
  ssh_role s <> role_unknown ->
  (forall c : byte, chunk !! 5%nat = Some c -> byte_val c <> SSH_MSG_KEXINIT) ->
  ssh_update sizeof_pointer s chunk (sizeof chunk) flag = Ok s.
Proof.
  unfold sizeof_struct_ssh_packet. intros Hp Hrole Hcode.
  destruct (Z_lt_ge_dec (sizeof chunk) sizeof_pointer) as [Hlt|Hge].
  - apply (ssh_update_dropped _ _ _ _ _ None Hrole).
    unfold ssh_packet_parse.
    by destruct (Z.ltb_spec (sizeof chunk) sizeof_pointer); [|lia].
  - destruct (sizeof_at_least_6 chunk) as (b0 & b1 & b2 & b3 & b4 & b5 & rest
      & ->); [lia|].
    specialize (Hcode b5 eq_refl).
    destruct (Z_le_gt_dec (be32 b0 b1 b2 b3) 32768) as [Hle|Hgt].
    + eapply (ssh_update_ignored _ _ _ _ _ _ b5 Hrole); [|done].
      unfold ssh_packet_parse.
      destruct (Z.ltb_spec (sizeof (b0 :: b1 :: b2 :: b3 :: b4 :: b5 :: rest))
                  sizeof_pointer); [lia|].
      rewrite ntohl_at_cons4. cbn [mbind result_bind].
      destruct (Z.ltb_spec 32768 (be32 b0 b1 b2 b3)); [lia|]. reflexivity.
    + apply (ssh_update_dropped _ _ _ _ _ None Hrole).
      unfold ssh_packet_parse.
      destruct (Z.ltb_spec (sizeof (b0 :: b1 :: b2 :: b3 :: b4 :: b5 :: rest))
                  sizeof_pointer); [done|].
      rewrite ntohl_at_cons4. cbn [mbind result_bind].
      by destruct (Z.ltb_spec 32768 (be32 b0 b1 b2 b3)); [|lia].
Qed.

Lemma ssh_update_other_message_witness :
  sizeof_struct_ssh_packet <= sizeof_pointer_LP64 /\
  ssh_role demo_record_banner <> role_unknown /\
  (forall c : byte,
     [Byte.x00; Byte.x00; Byte.x00; Byte.x0c; Byte.x04; Byte.x15;
      Byte.x61; Byte.x62] !! 5%nat = Some c ->
     byte_val c <> SSH_MSG_KEXINIT) /\
  ssh_update sizeof_pointer_LP64 demo_record_banner
    [Byte.x00; Byte.x00; Byte.x00; Byte.x0c; Byte.x04; Byte.x15;
     Byte.x61; Byte.x62]
    (sizeof [Byte.x00; Byte.x00; Byte.x00; Byte.x0c; Byte.x04; Byte.x15;
             Byte.x61; Byte.x62]) 1
    = Ok demo_record_banner.
Proof.
  assert (H3 : forall c : byte,
            [Byte.x00; Byte.x00; Byte.x00; Byte.x0c; Byte.x04; Byte.x15;
             Byte.x61; Byte.x62] !! 5%nat = Some c ->
            byte_val c <> SSH_MSG_KEXINIT).
  { intros c [= <-]. calc. }
  split; [calc|]. split; [discriminate|]. split; [exact H3|].
  apply ssh_update_other_message; [calc | discriminate | exact H3].
Defined.

Lemma copy_loop_fault (n : nat) (datalen : Z) (buf : list byte) (i : nat)
    (d : list byte) (f : fault) :
  copy_loop n datalen buf i d = Fault f -> f <> IndeterminateRead.
Proof.
  revert datalen buf i d. induction n as [|n IH]; intros datalen buf i d;
    [done|].
  cbn [copy_loop]. destruct (datalen =? 0); [done|]. unfold load.
  destruct (d !! 0%nat); [|by intros [= <-]]. cbn [mbind result_bind].
  destruct (isprint _); [|done]. unfold store.
  case_decide; [|by intros [= <-]]. cbn [mbind result_bind]. apply IH.
Qed.

Lemma copy_printable_string_fault (buf : list byte) (buflen : Z)
    (data : list byte) (datalen : Z) (f : fault) :
  copy_printable_string buf buflen data datalen = Fault f ->
  f <> IndeterminateRead.
Proof.
  unfold copy_printable_string.
  destruct (copy_loop _ _ _ _ _) as [[buf' j]|f'] eqn:Hloop.
  - cbn [mbind result_bind]. unfold store.
    by case_decide; [|intros [= <-]].
  - cbn [mbind result_bind]. intros [= <-].
    by apply copy_loop_fault in Hloop.
Qed.

Lemma ntohl_at_fault (p : list byte) (off : nat) (f : fault) :
  ntohl_at p off = Fault f -> f <> IndeterminateRead.
Proof.
  unfold ntohl_at, load.
  destruct (p !! off); cbn [mbind result_bind]; [|by intros [= <-]].
  destruct (p !! (off + 1)%nat); cbn [mbind result_bind];
    [|by intros [= <-]].
  destruct (p !! (off + 2)%nat); cbn [mbind result_bind];
    [|by intros [= <-]].
  destruct (p !! (off + 3)%nat); cbn [mbind result_bind];
    [done | by intros [= <-]].
Qed.

Lemma ssh_parse_kexinit_fault (s : ssh) (data : list byte) (datalen : Z)
    (f : fault) :
  ssh_parse_kexinit s data datalen = Fault f -> f <> IndeterminateRead.
Proof.
  unfold ssh_parse_kexinit. destruct (datalen <? 16); [done|].
  unfold memcpy. repeat case_decide; try by intros [= <-].
  cbn [mbind result_bind]. destruct (datalen - 16 <? 4); [done|].
  unfold decode_uint32.
  destruct (ntohl_at _ _) as [n|f'] eqn:Hn;
    [|cbn; intros [= <-]; by apply ntohl_at_fault in Hn].
  cbn [mbind result_bind]. destruct (n =? 0); [done|].
  destruct (copy_printable_string _ _ _ _) as [a|f'] eqn:Hcopy; [done|].
  cbn. intros [= <-]. by apply copy_printable_string_fault in Hcopy.
Qed.

Lemma ssh_packet_parse_fault (sizeof_pointer : Z) (pkt : list byte)
    (datalen : Z) (msg_code : option byte) (f : fault) :
  ssh_packet_parse sizeof_pointer pkt datalen msg_code = Fault f ->
  f <> IndeterminateRead.
Proof.
  unfold ssh_packet_parse. destruct (datalen <? sizeof_pointer); [done|].
  destruct (ntohl_at _ _) as [n|f'] eqn:Hn;
    [|cbn; intros [= <-]; by apply ntohl_at_fault in Hn].
  cbn [mbind result_bind]. destruct (32768 <? n); [done|]. unfold load.
  destruct (pkt !! 5%nat); [|by intros [= <-]]. cbn [mbind result_bind].
  by destruct (pkt !! 4%nat); [|intros [= <-]].
Qed.

(** X13: no call of [ssh_update] reads [msg_code] before the framer has
    assigned it: a call either returns or stops on an access outside a
    buffer, never on the indeterminate value of the local variable. *)
Theorem ssh_update_msg_code_assigned (sizeof_pointer : Z) (s : ssh)
    (data : list byte) (len report_ssh : Z) :
  ssh_update sizeof_pointer s data len report_ssh
    <> Fault IndeterminateRead.
Proof.
  unfold ssh_update. destruct (len =? 0); [done|].
  destruct (report_ssh =? 0); [done|].
  set (banner := if decide (ssh_role s = role_unknown) then _ else _).
  assert (Hbanner : banner <> Fault IndeterminateRead).
  { subst banner. case_decide; [|done]. unfold load.
    destruct (protocol s !! 0%nat) as [b|]; [|done].
    cbn [mbind result_bind]. destruct (byte_val b =? 0); [|done].
    destruct (copy_printable_string _ _ _ _) as [p|f] eqn:Hcopy; [done|].
    cbn. intros [= ->]. by apply copy_printable_string_fault in Hcopy. }
  destruct banner as [s1|f]; [|cbn; congruence]. cbn [mbind result_bind].
  destruct (ssh_packet_parse _ _ _ _) as [[length msg_code]|f] eqn:Hparse.
  - cbn [mbind result_bind]. destruct (Z.eqb_spec length 0); [done|].
    destruct msg_code as [c|].
    + destruct (byte_val c =? SSH_MSG_KEXINIT); [|done].
      intros Hk. by apply ssh_parse_kexinit_fault in Hk.
    + by apply ssh_packet_parse_msg_code in Hparse.
  - cbn. intros [= ->]. by apply ssh_packet_parse_fault in Hparse.
Qed.

Lemma ssh_parse_kexinit_payload (s : ssh) (ck : list byte)
    (n0 n1 n2 n3 : byte) (lists : list byte) (datalen : Z) :
  length ck = 16%nat -> length (cookie s) = 16%nat ->
  20 <= datalen -> be32 n0 n1 n2 n3 <> 0 ->
  ssh_parse_kexinit s (ck ++ n0 :: n1 :: n2 :: n3 :: lists) datalen =
    a ← copy_printable_string (host_key_algos s) (sizeof (host_key_algos s))
          lists (datalen - 16 - 4);
    Ok (set_host_key_algos (set_cookie s ck) a).
Proof.
  intros Hck Hcookie Hlen Hn. unfold ssh_parse_kexinit.
  destruct (Z.ltb_spec datalen 16); [lia|].
  unfold memcpy. rewrite length_app, Hck, Hcookie.
  rewrite !decide_False by lia. cbn [mbind result_bind].
  rewrite (take_app_length' ck _ 16), (drop_app_length' ck _ 16) by done.
  rewrite drop_ge, app_nil_r by lia.
  destruct (Z.ltb_spec (datalen - 16) 4); [lia|].
  unfold decode_uint32. rewrite ntohl_at_cons4. cbn [mbind result_bind].
  by destruct (Z.eqb_spec (be32 n0 n1 n2 n3) 0).
Qed.

Lemma sizeof_app (l k : list byte) : sizeof (l ++ k) = sizeof l + sizeof k.
Proof. unfold sizeof. rewrite length_app. lia. Qed.

Lemma sizeof_cons_S (b : byte) (l : list byte) : sizeof (b :: l) = 1 + sizeof l.
Proof. unfold sizeof. cbn [length]. lia. Qed.

Lemma sizeof_nonneg (l : list byte) : 0 <= sizeof l.
Proof. unfold sizeof. lia. Qed.

(** X14: a KEXINIT packet is taken in whole when its payload goes on after
    the first name-list.  For a record of known role, a packet framed as RFC
    4253 prescribes, a non-zero length field, a name-list [name] of printable
    bytes shorter than the array, and at least three further payload bytes
    of which the first, [m], is not printable (as the length field of the
    next name-list), the call stores the 16 cookie bytes and exactly [name],
    terminated, and leaves the rest of the record as it was. *)
Theorem ssh_update_kexinit_stored (sizeof_pointer : Z) (s : ssh)
    (b0 b1 b2 b3 pad : byte) (ck : list byte) (n0 n1 n2 n3 : byte)
    (name : list byte) (m : byte) (more trailer : list byte) (flag : Z) :
  ssh_role s <> role_unknown -> flag <> 0 ->
  sizeof_pointer
    <= sizeof (framed b0 b1 b2 b3 pad
                 (kexinit_payload ck n0 n1 n2 n3 (name ++ m :: more))
                 trailer) ->
  length ck = 16%nat -> length (cookie s) = 16%nat ->
  be32 n0 n1 n2 n3 <> 0 ->
  Forall (fun b => isprint b = true) name ->
  (length name < length (host_key_algos s))%nat ->
  isprint m = false -> (2 <= length more)%nat ->
  be32 b0 b1 b2 b3
    = 1 + sizeof (kexinit_payload ck n0 n1 n2 n3 (name ++ m :: more))
      + byte_val pad ->
  be32 b0 b1 b2 b3 <= 32768 ->
  ssh_update sizeof_pointer s
    (framed b0 b1 b2 b3 pad
       (kexinit_payload ck n0 n1 n2 n3 (name ++ m :: more)) trailer)
    (sizeof (framed b0 b1 b2 b3 pad
               (kexinit_payload ck n0 n1 n2 n3 (name ++ m :: more)) trailer))
    flag
    = Ok (set_host_key_algos (set_cookie s ck)
            (name ++ Byte.x00 :: drop (S (length name)) (host_key_algos s))).
Proof.
  intros Hrole Hflag Hsize Hck Hcookie Hn Hname Hfit Hm Hmore Hlen Hceil.
  assert (Hpayload : sizeof (kexinit_payload ck n0 n1 n2 n3 (name ++ m :: more))
                     = 22 + sizeof name + sizeof more).
  { unfold kexinit_payload.
    rewrite sizeof_cons_S, sizeof_app, !sizeof_cons_S, sizeof_app,
      sizeof_cons_S.
    unfold sizeof at 1. rewrite Hck. lia. }
  rewrite Hpayload in Hlen.
  pose proof (sizeof_nonneg name). pose proof (byte_val_range pad).
  assert (Hmore' : 2 <= sizeof more) by (unfold sizeof; lia).
  rewrite ssh_update_known_eq; [|done| |done].
  2:{ unfold framed. rewrite !sizeof_cons_S.
      pose proof (sizeof_nonneg (kexinit_payload ck n0 n1 n2 n3
                                   (name ++ m :: more) ++ trailer)). lia. }
  revert Hsize.
  generalize (sizeof (framed b0 b1 b2 b3 pad
                        (kexinit_payload ck n0 n1 n2 n3 (name ++ m :: more))
                        trailer)).
  intros len Hsize. unfold framed, kexinit_payload.
  rewrite <- app_comm_cons. rewrite ssh_packet_parse_header by lia.
  cbn [mbind result_bind]. rewrite Hlen.
  destruct (Z.eqb_spec (1 + (22 + sizeof name + sizeof more) + byte_val pad
                        - byte_val pad - 5) 0); [lia|].
  change (byte_val Byte.x14 =? SSH_MSG_KEXINIT) with true. cbn match.
  change (Z.to_nat sizeof_struct_ssh_packet) with 6%nat. cbn [skipn].
  rewrite drop_0, <- app_assoc. cbn [app].
  rewrite ssh_parse_kexinit_payload by (done || lia).
  rewrite <- app_assoc. cbn [app].
  rewrite copy_printable_string_run; [done|done|done| | |].
  - unfold sizeof. rewrite Nat2Z.id. lia.
  - lia.
  - right. right. by eexists _, _.
Qed.

Lemma ssh_update_kexinit_stored_witness :
  ssh_role demo_record_banner <> role_unknown /\ 1 <> 0 /\
  sizeof_pointer_LP64
    <= sizeof (framed Byte.x00 Byte.x00 Byte.x00 Byte.x3c Byte.x07
                 (kexinit_payload demo_cookie Byte.x00 Byte.x00 Byte.x00
                    Byte.x1b
                    (demo_name_list ++ Byte.x00 :: replicate 3 Byte.x00))
                 (replicate 7 Byte.x00)) /\
  length demo_cookie = 16%nat /\
  length (cookie demo_record_banner) = 16%nat /\
  be32 Byte.x00 Byte.x00 Byte.x00 Byte.x1b <> 0 /\
  Forall (fun b => isprint b = true) demo_name_list /\
  (length demo_name_list < length (host_key_algos demo_record_banner))%nat /\
  isprint Byte.x00 = false /\
  (2 <= length (replicate 3 Byte.x00))%nat /\
  be32 Byte.x00 Byte.x00 Byte.x00 Byte.x3c
    = 1 + sizeof (kexinit_payload demo_cookie Byte.x00 Byte.x00 Byte.x00
                    Byte.x1b
                    (demo_name_list ++ Byte.x00 :: replicate 3 Byte.x00))
      + byte_val Byte.x07 /\
  be32 Byte.x00 Byte.x00 Byte.x00 Byte.x3c <= 32768 /\
  ssh_update sizeof_pointer_LP64 demo_record_banner
    (framed Byte.x00 Byte.x00 Byte.x00 Byte.x3c Byte.x07
       (kexinit_payload demo_cookie Byte.x00 Byte.x00 Byte.x00 Byte.x1b
          (demo_name_list ++ Byte.x00 :: replicate 3 Byte.x00))
       (replicate 7 Byte.x00))
    (sizeof (framed Byte.x00 Byte.x00 Byte.x00 Byte.x3c Byte.x07
               (kexinit_payload demo_cookie Byte.x00 Byte.x00 Byte.x00
                  Byte.x1b
                  (demo_name_list ++ Byte.x00 :: replicate 3 Byte.x00))
               (replicate 7 Byte.x00)))
    1
    = Ok (set_host_key_algos (set_cookie demo_record_banner demo_cookie)
            (demo_name_list ++ Byte.x00 ::
             drop (S (length demo_name_list))
               (host_key_algos demo_record_banner))).
Proof.
  assert (Hname : Forall (fun b => isprint b = true) demo_name_list)
    by (repeat constructor).
  split; [discriminate|]. split; [lia|]. split; [calc|]. split; [calc|].
  split; [calc|]. split; [calc|]. split; [exact Hname|]. split; [calc|].
  split; [calc|]. split; [calc|]. split; [calc|]. split; [calc|].
  apply ssh_update_kexinit_stored;
    [discriminate | lia | calc | calc | calc | calc | exact Hname | calc
    | calc | calc | calc | calc].
Defined.

(** X15: the decoder is given the length that the header declares, not the
    length of the chunk.  For a record of known role, a chunk with the
    KEXINIT code whose header yields a length of 16 or more while fewer than
    16 bytes follow the header is read past its end. *)
Theorem ssh_update_header_overread (sizeof_pointer : Z) (s : ssh)
    (b0 b1 b2 b3 pad : byte) (rest : list byte) (flag : Z) :
  ssh_role s <> role_unknown -> flag <> 0 ->
  sizeof_pointer
    <= sizeof (b0 :: b1 :: b2 :: b3 :: pad :: Byte.x14 :: rest) ->
  be32 b0 b1 b2 b3 <= 32768 ->
  16 <= u32 (be32 b0 b1 b2 b3 - byte_val pad - 5) ->
  (length rest < 16)%nat ->
  ssh_update sizeof_pointer s
    (b0 :: b1 :: b2 :: b3 :: pad :: Byte.x14 :: rest)
    (sizeof (b0 :: b1 :: b2 :: b3 :: pad :: Byte.x14 :: rest)) flag
    = Fault OutOfBoundsRead.
Proof.
  intros Hrole Hflag Hsize Hceil Hlen Hrest.
  rewrite ssh_update_known_eq; [|done| |done].
  2:{ rewrite !sizeof_cons_S. pose proof (sizeof_nonneg rest). lia. }
  unfold ssh_packet_parse.
  destruct (Z.ltb_spec
              (sizeof (b0 :: b1 :: b2 :: b3 :: pad :: Byte.x14 :: rest))
              sizeof_pointer); [lia|].
  rewrite ntohl_at_cons4. cbn [mbind result_bind].
  destruct (Z.ltb_spec 32768 (be32 b0 b1 b2 b3)); [lia|].
  cbn [load lookup list_lookup mbind result_bind].
  destruct (Z.eqb_spec (u32 (be32 b0 b1 b2 b3 - byte_val pad - 5)) 0); [lia|].
  change (byte_val Byte.x14 =? SSH_MSG_KEXINIT) with true. cbn match.
  change (Z.to_nat sizeof_struct_ssh_packet) with 6%nat. cbn [skipn].
  rewrite drop_0. unfold ssh_parse_kexinit.
  destruct (Z.ltb_spec (u32 (be32 b0 b1 b2 b3 - byte_val pad - 5)) 16);
    [lia|].
  unfold memcpy. by rewrite decide_True by lia.
Qed.

Lemma ssh_update_header_overread_witness :
  ssh_role demo_record_banner <> role_unknown /\ 1 <> 0 /\
  sizeof_pointer_LP64
    <= sizeof (Byte.x00 :: Byte.x00 :: Byte.x00 :: Byte.x3c :: Byte.x0b ::
               Byte.x14 :: [Byte.xa0; Byte.xa1]) /\
  be32 Byte.x00 Byte.x00 Byte.x00 Byte.x3c <= 32768 /\
  16 <= u32 (be32 Byte.x00 Byte.x00 Byte.x00 Byte.x3c - byte_val Byte.x0b - 5)
  /\
  (length [Byte.xa0; Byte.xa1] < 16)%nat /\
  ssh_update sizeof_pointer_LP64 demo_record_banner
    (Byte.x00 :: Byte.x00 :: Byte.x00 :: Byte.x3c :: Byte.x0b :: Byte.x14 ::
     [Byte.xa0; Byte.xa1])
    (sizeof (Byte.x00 :: Byte.x00 :: Byte.x00 :: Byte.x3c :: Byte.x0b ::
             Byte.x14 :: [Byte.xa0; Byte.xa1])) 1
    = Fault OutOfBoundsRead.
Proof.
  split; [discriminate|]. split; [lia|]. split; [calc|]. split; [calc|].
  split; [calc|]. split; [calc|].
  apply ssh_update_header_overread; [discriminate | lia | calc..].
Defined.

(** X16: the off-by-one of the copier is reached from the wire.  On a record
    still without banner, a first analysed chunk that starts with as many
    printable bytes as the banner array has bytes makes [ssh_update] write
    the terminator one byte past the array. *)
Theorem ssh_update_long_banner (sizeof_pointer : Z) (s : ssh)
    (chunk : list byte) (flag : Z) :
  ssh_role s = role_unknown -> banner_empty s -> flag <> 0 ->
  (length (protocol s) <= length chunk)%nat ->
  Forall (fun b => isprint b = true) (take (length (protocol s)) chunk) ->
  ssh_update sizeof_pointer s chunk (sizeof chunk) flag
    = Fault OutOfBoundsWrite.
Proof. apply ssh_update_banner_overflow. Qed.

Lemma ssh_update_long_banner_witness :
  ssh_role demo_record = role_unknown /\ banner_empty demo_record /\
  1 <> 0 /\
  (length (protocol demo_record) <= length (replicate 16 Byte.x41))%nat /\
  Forall (fun b => isprint b = true)
    (take (length (protocol demo_record)) (replicate 16 Byte.x41)) /\
  ssh_update sizeof_pointer_LP64 demo_record (replicate 16 Byte.x41)
    (sizeof (replicate 16 Byte.x41)) 1 = Fault OutOfBoundsWrite.
Proof.
  assert (H5 : Forall (fun b => isprint b = true)
                 (take (length (protocol demo_record))
                    (replicate 16 Byte.x41))) by (repeat constructor).
  split; [reflexivity|]. split; [reflexivity|]. split; [lia|].
  split; [calc|]. split; [exact H5|].
  apply ssh_update_long_banner; [reflexivity | reflexivity | lia | calc
                                | exact H5].
Defined.

(** X17: a call stays within the chunk and the record, and returns, whenever
    the banner array has room for the printable prefix of the chunk and its
    terminator and the chunk does not carry the KEXINIT code at offset 5,
    wherever a data pointer has at least 6 bytes. *)
Theorem ssh_update_in_bounds (sizeof_pointer : Z) (s : ssh)
    (chunk : list byte) (flag : Z) :
  sizeof_struct_ssh_packet <= sizeof_pointer ->
  (length (printable_prefix chunk) < length (protocol s))%nat ->
  (forall c : byte, chunk !! 5%nat = Some c -> byte_val c <> SSH_MSG_KEXINIT) ->
  exists s' : ssh,
    ssh_update sizeof_pointer s chunk (sizeof chunk) flag = Ok s'.
Proof. apply ssh_update_returns. Qed.

Lemma ssh_update_in_bounds_witness :
  sizeof_struct_ssh_packet <= sizeof_pointer_LP64 /\
  (length (printable_prefix demo_banner) < length (protocol demo_record))%nat
  /\
  (forall c : byte,
     demo_banner !! 5%nat = Some c -> byte_val c <> SSH_MSG_KEXINIT) /\
  exists s' : ssh,
    ssh_update sizeof_pointer_LP64 demo_record demo_banner
      (sizeof demo_banner) 1 = Ok s'.
Proof.
  assert (H3 : forall c : byte,
            demo_banner !! 5%nat = Some c -> byte_val c <> SSH_MSG_KEXINIT).
  { intros c [= <-]. calc. }
  split; [calc|]. split; [calc|]. split; [exact H3|].
  apply ssh_update_in_bounds; [calc | calc | exact H3].
Defined.

Lemma same_sizes_refl (s : ssh) : same_sizes s s.
Proof. by unfold same_sizes. Qed.

Lemma same_sizes_trans (s1 s2 s3 : ssh) :
  same_sizes s1 s2 -> same_sizes s2 s3 -> same_sizes s1 s3.
Proof. unfold same_sizes. intros (? & ? & ?) (? & ? & ?). lia. Qed.

Lemma ssh_update_coherent (sizeof_pointer : Z) (s s' : ssh)
    (data : list byte) (len report_ssh : Z) :
  ssh_update sizeof_pointer s data len report_ssh = Ok s' ->
  coherent s -> coherent s' /\ same_sizes s s'.
Proof.
  intros Hup Hcoh. revert Hup. unfold ssh_update.
  destruct (len =? 0); [intros [= <-]; by split; [|apply same_sizes_refl]|].
  destruct (report_ssh =? 0);
    [intros [= <-]; by split; [|apply same_sizes_refl]|].
  set (banner := if decide (ssh_role s = role_unknown) then _ else _).
  assert (Hbanner : forall s1, banner = Ok s1 ->
            coherent s1 /\ same_sizes s s1).
  { subst banner. intros s1.
    case_decide; [|intros [= <-]; by split; [|apply same_sizes_refl]].
    destruct (load _ _) as [b|]; [|done]. cbn [mbind result_bind].
    destruct (byte_val b =? 0);
      [|intros [= <-]; by split; [|apply same_sizes_refl]].
    destruct (copy_printable_string _ _ _ _) as [p|] eqn:Hcopy; [|done].
    intros [= <-].
    apply copy_printable_string_post in Hcopy as (q & -> & Hlt & Hq & _).
    destruct Hcoh as (_ & Ha & Hc). unfold coherent, same_sizes.
    cbn [set_role set_protocol protocol cookie host_key_algos].
    split_and!; try done; [by apply printable_string_intro|].
    rewrite length_app. cbn [length]. rewrite length_drop. lia. }
  destruct banner as [s1|]; [|done].
  destruct (Hbanner s1 eq_refl) as [Hcoh1 Hsz1]. cbn [mbind result_bind].
  destruct (ssh_packet_parse _ _ _ _) as [[length msg_code]|]; [|done].
  cbn [mbind result_bind].
  destruct (length =? 0); [by intros [= <-]|].
  destruct msg_code as [c|]; [|done].
  destruct (byte_val c =? SSH_MSG_KEXINIT); [|by intros [= <-]].
  intros Hk. split.
  - by eapply ssh_parse_kexinit_coherent.
  - eapply same_sizes_trans; [done|].
    by eapply ssh_parse_kexinit_same_sizes.
Qed.

Lemma ssh_update_all_coherent (sizeof_pointer : Z) (s s' : ssh)
    (calls : list (list byte * Z)) :
  ssh_update_all sizeof_pointer s calls = Ok s' ->
  coherent s -> coherent s' /\ same_sizes s s'.
Proof.
  revert s. induction calls as [|[chunk flag] calls IH]; intros s.
  - intros [= <-] Hcoh. by split; [|apply same_sizes_refl].
  - cbn [ssh_update_all].
    destruct (ssh_update _ _ _ _ _) as [s1|] eqn:Hs1; [|done].
    cbn [mbind result_bind]. intros Hrest Hcoh.
    apply ssh_update_coherent in Hs1 as [Hcoh1 Hsz1]; [|done].
    apply IH in Hrest as [Hcoh' Hsz']; [|done].
    split; [done|]. by eapply same_sizes_trans.
Qed.

Lemma c_string_head (a p : list byte) :
  c_string a = Some p ->
  exists (b : byte) (t : list byte),
    a = b :: t /\ (is_nul b = true <-> p = []).
Proof.
  destruct a as [|b t]; [done|]. cbn [c_string]. intros Hs.
  exists b, t. split; [done|]. destruct (is_nul b).
  - by injection Hs as <-.
  - destruct (c_string t); [|done]. by injection Hs as <-.
Qed.

(** The decoder stays within a payload that holds the [datalen] bytes it
    is told of and is no longer than the algorithm-list array. *)
Lemma ssh_parse_kexinit_within (s : ssh) (data : list byte) (datalen : Z) :
  datalen <= sizeof data ->
  (16 <= length (cookie s))%nat ->
  (length data <= length (host_key_algos s))%nat ->
  exists s' : ssh, ssh_parse_kexinit s data datalen = Ok s'.
Proof.
  unfold sizeof. intros Hlen Hcookie Halgos. unfold ssh_parse_kexinit.
  destruct (Z.ltb_spec datalen 16); [by eexists|].
  unfold memcpy. rewrite !decide_False by lia. cbn [mbind result_bind].
  destruct (Z.ltb_spec (datalen - 16) 4); [by eexists|].
  destruct (drop 16 data) as [|n0 [|n1 [|n2 [|n3 tail]]]] eqn:Hd;
    try (apply (f_equal length) in Hd; rewrite length_drop in Hd;
         cbn [length] in Hd; lia).
  unfold decode_uint32. rewrite ntohl_at_cons4. cbn [mbind result_bind].
  destruct (be32 n0 n1 n2 n3 =? 0); [by eexists|].
  cbn [skipn set_cookie host_key_algos].
  assert (Htail : length tail = (length data - 20)%nat).
  { apply (f_equal length) in Hd. rewrite length_drop in Hd.
    cbn [length] in Hd. lia. }
  set (m := Z.to_nat (datalen - 16 - 4)).
  assert (Hm : (m <= length tail)%nat) by (subst m; lia).
  assert (Hcopy : exists a : list byte,
            copy_printable_string (host_key_algos s)
              (Z.of_nat (length (host_key_algos s))) tail (datalen - 16 - 4)
            = Ok a).
  { rewrite <- (take_drop m tail).
    replace (datalen - 16 - 4) with (sizeof (take m tail))
      by (unfold sizeof; rewrite length_take; subst m; lia).
    rewrite copy_printable_string_spec. cbn zeta.
    pose proof (take_while_length isprint (take m tail)) as Hpp.
    fold (printable_prefix (take m tail)) in Hpp.
    rewrite length_take in Hpp.
    rewrite decide_True by lia. by eexists. }
  destruct Hcopy as [a Hcopy]. rewrite drop_0. unfold sizeof.
  rewrite Hcopy. cbn [mbind result_bind]. by eexists.
Qed.

Lemma ssh_packet_parse_total (sizeof_pointer : Z) (chunk : list byte)
    (msg_code : option byte) :
  sizeof_struct_ssh_packet <= sizeof_pointer ->
  exists r : Z * option byte,
    ssh_packet_parse sizeof_pointer chunk (sizeof chunk) msg_code = Ok r.
Proof.
  unfold sizeof_struct_ssh_packet. intros Hp. unfold ssh_packet_parse.
  destruct (Z.ltb_spec (sizeof chunk) sizeof_pointer) as [|Hlen];
    [by eexists|].
  destruct (sizeof_at_least_6 chunk) as (b0 & b1 & b2 & b3 & b4 & b5 & rest
    & ->); [lia|].
  rewrite ntohl_at_cons4. cbn [mbind result_bind].
  destruct (32768 <? be32 b0 b1 b2 b3); by eexists.
Qed.

(** A call with a bounded chunk on a coherent record returns. *)
Lemma ssh_update_bounded (sizeof_pointer : Z) (s : ssh) (chunk : list byte)
    (flag : Z) :
  sizeof_struct_ssh_packet <= sizeof_pointer ->
  coherent s -> bounded_call sizeof_pointer s (chunk, flag) ->
  exists s' : ssh,
    ssh_update sizeof_pointer s chunk (sizeof chunk) flag = Ok s'.
Proof.
  intros Hp ((p & Hproto & _) & _ & Hcookie) (Hshort & Halgos & Hwithin).
  cbn [fst] in Hshort, Halgos, Hwithin. unfold ssh_update.
  destruct (sizeof chunk =? 0); [by eexists|].
  destruct (flag =? 0); [by eexists|].
  set (banner := if decide (ssh_role s = role_unknown) then _ else _).
  assert (Hbanner : exists s1 : ssh,
            banner = Ok s1 /\ cookie s1 = cookie s /\
            host_key_algos s1 = host_key_algos s).
  { subst banner. case_decide; [|by eexists]. unfold load.
    destruct (c_string_head _ _ Hproto) as (b & t & Hbt & _).
    rewrite Hbt. cbn [lookup list_lookup mbind result_bind]. rewrite <- Hbt.
    destruct (byte_val b =? 0); [|by eexists].
    pose proof (take_while_length isprint chunk) as Hpp.
    fold (printable_prefix chunk) in Hpp.
    rewrite copy_printable_string_fits by lia. by eexists. }
  destruct Hbanner as (s1 & -> & Hc1 & Ha1). cbn [mbind result_bind].
  destruct (ssh_packet_parse_total sizeof_pointer chunk None Hp)
    as [[l msg_code] Hparse].
  rewrite Hparse. cbn [mbind result_bind].
  destruct (Z.eqb_spec l 0); [by eexists|].
  destruct msg_code as [c|];
    [|by apply ssh_packet_parse_msg_code in Hparse].
  destruct (byte_val c =? SSH_MSG_KEXINIT); [|by eexists].
  destruct (Hwithin l (Some c) Hparse) as [?|Hl]; [done|].
  unfold sizeof_struct_ssh_packet in Hl. unfold sizeof in Hl.
  change (Z.to_nat sizeof_struct_ssh_packet) with 6%nat.
  apply ssh_parse_kexinit_within.
  - unfold sizeof. rewrite length_drop. lia.
  - rewrite Hc1. lia.
  - rewrite length_drop, Ha1. lia.
Qed.

Lemma ssh_update_all_bounded (sizeof_pointer : Z) (s0 s : ssh)
    (calls : list (list byte * Z)) :
  sizeof_struct_ssh_packet <= sizeof_pointer ->
  coherent s -> same_sizes s0 s ->
  Forall (bounded_call sizeof_pointer s0) calls ->
  exists s' : ssh,
    ssh_update_all sizeof_pointer s calls = Ok s' /\
    coherent s' /\ same_sizes s0 s'.
Proof.
  intros Hp Hcoh Hsz Hcalls. revert s Hcoh Hsz.
  induction Hcalls as [|[chunk flag] calls Hcall _ IH]; intros s Hcoh Hsz.
  - by exists s.
  - cbn [ssh_update_all].
    assert (Hcall' : bounded_call sizeof_pointer s (chunk, flag)).
    { destruct Hcall as (H1 & H2 & H3), Hsz as (Hs1 & _ & Hs3).
      unfold bounded_call. cbn [fst] in *. rewrite Hs1, Hs3. done. }
    destruct (ssh_update_bounded _ _ _ _ Hp Hcoh Hcall') as [s1 Hs1].
    rewrite Hs1. cbn [mbind result_bind].
    apply ssh_update_coherent in Hs1 as [Hcoh1 Hsz1]; [|done].
    apply IH; [done|]. by eapply same_sizes_trans.
Qed.

(** X18: every flow of bounded calls returns and keeps the record in shape.
    From a record fresh from [ssh_init], with a 16-byte cookie array, and
    wherever a data pointer has at least 6 bytes, a sequence of calls whose
    chunks are shorter than the banner and the algorithm-list arrays and
    whose headers declare no more than the chunk holds makes no access
    outside a chunk or the record; the three arrays keep their sizes, and
    the banner and the algorithm list each hold a terminated string of
    printable bytes. *)
Theorem ssh_update_all_keeps_strings (sizeof_pointer : Z) (s0 s : ssh)
    (calls : list (list byte * Z)) :
  sizeof_struct_ssh_packet <= sizeof_pointer ->
  ssh_init s0 = Ok s ->
  length (cookie s0) = 16%nat -> host_key_algos s0 <> [] ->
  Forall (bounded_call sizeof_pointer s0) calls ->
  exists s' : ssh,
    ssh_update_all sizeof_pointer s calls = Ok s' /\
    same_sizes s0 s' /\
    printable_string (protocol s') /\ printable_string (host_key_algos s').
Proof.
  intros Hp Hinit Hc Ha Hcalls.
  apply ssh_init_coherent in Hinit as [Hcoh Hsz]; [|done..].
  destruct (ssh_update_all_bounded _ _ _ _ Hp Hcoh Hsz Hcalls)
    as (s' & Hrun & (Hproto & Halgos & _) & Hsz').
  by exists s'.
Qed.

Lemma demo_flow_bounded :
  Forall (bounded_call sizeof_pointer_LP64 (ssh_zero 80 80))
    [(demo_banner, 1);
     (framed Byte.x00 Byte.x00 Byte.x00 Byte.x3c Byte.x07
        (kexinit_payload demo_cookie Byte.x00 Byte.x00 Byte.x00 Byte.x1b
           (demo_name_list ++ Byte.x00 :: replicate 3 Byte.x00))
        (replicate 7 Byte.x00), 1)].
Proof.
  constructor; [|constructor; [|constructor]].
  - split; [calc|]. split; [calc|].
    intros l msg_code Hparse. vm_compute in Hparse.
    injection Hparse as <- _. by left.
  - split; [calc|]. split; [calc|].
    intros l msg_code Hparse. vm_compute in Hparse.
    injection Hparse as <- _. right. calc.
Defined.

Lemma ssh_update_all_keeps_strings_witness :
  sizeof_struct_ssh_packet <= sizeof_pointer_LP64 /\
  ssh_init (ssh_zero 80 80) = Ok (ssh_zero 80 80) /\
  length (cookie (ssh_zero 80 80)) = 16%nat /\
  host_key_algos (ssh_zero 80 80) <> [] /\
  Forall (bounded_call sizeof_pointer_LP64 (ssh_zero 80 80))
    [(demo_banner, 1);
     (framed Byte.x00 Byte.x00 Byte.x00 Byte.x3c Byte.x07
        (kexinit_payload demo_cookie Byte.x00 Byte.x00 Byte.x00 Byte.x1b
           (demo_name_list ++ Byte.x00 :: replicate 3 Byte.x00))
        (replicate 7 Byte.x00), 1)] /\
  exists s' : ssh,
    ssh_update_all sizeof_pointer_LP64 (ssh_zero 80 80)
      [(demo_banner, 1);
       (framed Byte.x00 Byte.x00 Byte.x00 Byte.x3c Byte.x07
          (kexinit_payload demo_cookie Byte.x00 Byte.x00 Byte.x00 Byte.x1b
             (demo_name_list ++ Byte.x00 :: replicate 3 Byte.x00))
          (replicate 7 Byte.x00), 1)] = Ok s' /\
    same_sizes (ssh_zero 80 80) s' /\
    printable_string (protocol s') /\ printable_string (host_key_algos s').
Proof.
  split; [calc|]. split; [reflexivity|]. split; [reflexivity|].
  split; [discriminate|]. split; [exact demo_flow_bounded|].
  apply (ssh_update_all_keeps_strings sizeof_pointer_LP64 (ssh_zero 80 80)
           (ssh_zero 80 80));
    [calc | reflexivity | reflexivity | discriminate
    | exact demo_flow_bounded].
Defined.

(** ** Reporting *)

(** The report of a record whose role is known and whose banner is empty. *)
Lemma ssh_print_json_empty_banner (raw_as_hex : list byte -> list byte)
    (x1 : ssh) (x2 : option ssh) (f : list byte) :
  ssh_role x1 <> role_unknown -> c_string (protocol x1) = Some [] ->
  ssh_print_json raw_as_hex x1 x2 f = Ok (f ++ fmt_ssh_open ++ fmt_close).
Proof.
  intros Hrole Hs. unfold ssh_print_json. rewrite decide_True by done.
  generalize fmt_ssh_open fmt_close. intros fopen fclose.
  apply c_string_head in Hs as (b & t & -> & Hnul).
  cbn [load lookup list_lookup mbind result_bind].
  unfold is_nul in Hnul. rewrite (proj2 Hnul eq_refl). cbn [negb].
  cbn [mbind result_bind]. by rewrite <- app_assoc.
Qed.

(** The report of a coherent record returns and only appends. *)
Lemma ssh_print_json_coherent (raw_as_hex : list byte -> list byte)
    (x1 : ssh) (x2 : option ssh) (f : list byte) :
  coherent x1 ->
  exists out : list byte, ssh_print_json raw_as_hex x1 x2 f = Ok (f ++ out).
Proof.
  intros ((p & Hp & _) & (a & Ha & _) & Hc). unfold ssh_print_json.
  generalize fmt_ssh_open fmt_protocol fmt_quote fmt_cookie
    fmt_host_key_algo fmt_close.
  intros fopen fproto fquote fcookie falgo fclose.
  case_decide; [|exists []; by rewrite app_nil_r].
  destruct (c_string_head _ _ Hp) as (b & t & Hpt & _). rewrite Hpt.
  cbn [load lookup list_lookup mbind result_bind]. rewrite <- Hpt.
  destruct (negb (byte_val b =? 0)).
  - unfold print_string. rewrite Hp, Ha. cbn [mbind result_bind].
    destruct (cookie x1) as [|c ck] eqn:Hck; [done|].
    cbn [load lookup list_lookup mbind result_bind].
    destruct (negb (byte_val c =? 0)).
    + unfold zprintf_raw_as_hex, sizeof. rewrite Nat2Z.id.
      rewrite decide_False by lia. cbn [mbind result_bind].
      eexists. rewrite <- !app_assoc. reflexivity.
    + cbn [mbind result_bind]. eexists. rewrite <- !app_assoc. reflexivity.
  - cbn [mbind result_bind]. eexists. rewrite <- !app_assoc. reflexivity.
Qed.

(** X19: [ssh_print_json] writes nothing for a record of unknown role, and
    for any other record whatever it writes is appended to the file and is
    the opening of the ssh section, some text, and the closing brace. *)
Theorem ssh_print_json_section (raw_as_hex : list byte -> list byte)
    (x1 : ssh) (x2 : option ssh) (f out : list byte) :
  ssh_print_json raw_as_hex x1 x2 f = Ok out ->
  (ssh_role x1 = role_unknown /\ out = f) \/
  (ssh_role x1 <> role_unknown /\
   exists body : list byte, out = f ++ fmt_ssh_open ++ body ++ fmt_close).
Proof.
  unfold ssh_print_json.
  generalize fmt_ssh_open fmt_protocol fmt_quote fmt_cookie
    fmt_host_key_algo fmt_close.
  intros fopen fproto fquote fcookie falgo fclose.
  case_decide as Hrole.
  - intros Hout. right. split; [done|]. revert Hout.
    destruct (load (protocol x1) 0) as [b|]; cbn [mbind result_bind];
      [|discriminate].
    destruct (negb _).
    + destruct (print_string (protocol x1)) as [p|];
        cbn [mbind result_bind]; [|discriminate].
      destruct (load (cookie x1) 0) as [c|]; cbn [mbind result_bind];
        [|discriminate].
      destruct (negb _).
      * unfold zprintf_raw_as_hex.
        case_decide; cbn [mbind result_bind]; [discriminate|].
        destruct (print_string _) as [a|]; cbn [mbind result_bind];
          [|discriminate].
        intros [= <-].
        exists (fproto ++ p ++ fquote ++ fcookie ++
                raw_as_hex (take (Z.to_nat (sizeof (cookie x1))) (cookie x1))
                ++ falgo ++ a ++ fquote).
        by rewrite <- !app_assoc.
      * cbn [mbind result_bind].
        destruct (print_string _) as [a|]; cbn [mbind result_bind];
          [|discriminate].
        intros [= <-].
        exists (fproto ++ p ++ fquote ++ falgo ++ a ++ fquote).
        by rewrite <- !app_assoc.
    + cbn [mbind result_bind]. rewrite <- !app_assoc. intros [= <-].
      by exists [].
  - intros [= <-]. left. split; [|done].
    by destruct (decide (ssh_role x1 = role_unknown)).
Qed.

Lemma ssh_print_json_section_witness :
  ssh_print_json hex_of_bytes
    (mk_ssh role_client (demo_banner ++ replicate 4 Byte.x00) demo_cookie
       (list_byte_of_string "ssh-x" ++ replicate 27 Byte.x00)) None []
    = Ok ([] ++ fmt_ssh_open ++
          (fmt_protocol ++ demo_banner ++ fmt_quote ++ fmt_cookie ++
           list_byte_of_string "a0a1a2a3a4a5a6a7a8a9aaabacadaeaf" ++
           fmt_host_key_algo ++ list_byte_of_string "ssh-x" ++ fmt_quote) ++
          fmt_close) /\
  ((ssh_role (mk_ssh role_client (demo_banner ++ replicate 4 Byte.x00)
                demo_cookie
                (list_byte_of_string "ssh-x" ++ replicate 27 Byte.x00))
    = role_unknown /\
    [] ++ fmt_ssh_open ++
    (fmt_protocol ++ demo_banner ++ fmt_quote ++ fmt_cookie ++
     list_byte_of_string "a0a1a2a3a4a5a6a7a8a9aaabacadaeaf" ++
     fmt_host_key_algo ++ list_byte_of_string "ssh-x" ++ fmt_quote) ++
    fmt_close = []) \/
   (ssh_role (mk_ssh role_client (demo_banner ++ replicate 4 Byte.x00)
                demo_cookie
                (list_byte_of_string "ssh-x" ++ replicate 27 Byte.x00))
    <> role_unknown /\
    exists body : list byte,
      [] ++ fmt_ssh_open ++
      (fmt_protocol ++ demo_banner ++ fmt_quote ++ fmt_cookie ++
       list_byte_of_string "a0a1a2a3a4a5a6a7a8a9aaabacadaeaf" ++
       fmt_host_key_algo ++ list_byte_of_string "ssh-x" ++ fmt_quote) ++
      fmt_close = [] ++ fmt_ssh_open ++ body ++ fmt_close)).
Proof.
  split; [reflexivity|].
  apply (ssh_print_json_section hex_of_bytes _ None []). reflexivity.
Defined.

(** X20: a flow whose first analysed chunk does not start with a printable
    byte, such as a KEXINIT packet seen before any banner, is reported as an
    empty ssh section for good: the banner stays empty, and whatever cookie
    and algorithm list later calls collect, [ssh_print_json] writes only the
    opening and the closing of the section. *)
Theorem ssh_print_json_without_banner (raw_as_hex : list byte -> list byte)
    (sizeof_pointer : Z) (s0 s s' : ssh) (pre post : list (list byte * Z))
    (chunk : list byte) (flag : Z) (x2 : option ssh) (f : list byte) :
  ssh_init s0 = Ok s ->
  Forall skipped pre ->
  chunk <> [] -> flag <> 0 -> printable_prefix chunk = [] ->
  ssh_update_all sizeof_pointer s (pre ++ (chunk, flag) :: post) = Ok s' ->
  ssh_print_json raw_as_hex s' x2 f = Ok (f ++ fmt_ssh_open ++ fmt_close).
Proof.
  intros Hinit Hpre Hchunk Hflag Hpp Hrun.
  apply ssh_init_ok in Hinit as (Hrole & Hempty & _).
  rewrite ssh_update_all_app in Hrun.
  rewrite (ssh_update_all_skipped _ _ _ Hpre) in Hrun.
  cbn [mbind result_bind ssh_update_all] in Hrun.
  destruct (ssh_update _ _ _ _ _) as [s1|] eqn:Hs1; [|done].
  cbn [mbind result_bind] in Hrun.
  apply ssh_update_first in Hs1 as [Hr1 Hb1]; [|done..].
  apply ssh_update_all_known in Hrun as [Hr2 Hb2]; [|by rewrite Hr1].
  apply ssh_print_json_empty_banner.
  - by rewrite Hr2, Hr1.
  - by rewrite Hb2, Hb1, Hpp.
Qed.

Lemma ssh_print_json_without_banner_witness :
  ssh_init demo_record = Ok demo_record /\
  Forall skipped [([], 1)] /\
  framed Byte.x00 Byte.x00 Byte.x00 Byte.x3c Byte.x07
    (kexinit_payload demo_cookie Byte.x00 Byte.x00 Byte.x00 Byte.x1b
       (demo_name_list ++ Byte.x00 :: replicate 3 Byte.x00))
    (replicate 7 Byte.x00) <> [] /\
  1 <> 0 /\
  printable_prefix
    (framed Byte.x00 Byte.x00 Byte.x00 Byte.x3c Byte.x07
       (kexinit_payload demo_cookie Byte.x00 Byte.x00 Byte.x00 Byte.x1b
          (demo_name_list ++ Byte.x00 :: replicate 3 Byte.x00))
       (replicate 7 Byte.x00)) = [] /\
  ssh_update_all sizeof_pointer_LP64 demo_record
    ([([], 1)] ++
     (framed Byte.x00 Byte.x00 Byte.x00 Byte.x3c Byte.x07
        (kexinit_payload demo_cookie Byte.x00 Byte.x00 Byte.x00 Byte.x1b
           (demo_name_list ++ Byte.x00 :: replicate 3 Byte.x00))
        (replicate 7 Byte.x00), 1) :: [(demo_banner, 1)])
    = Ok (mk_ssh role_client (replicate 16 Byte.x00) demo_cookie
            (demo_name_list ++ replicate 5 Byte.x00)) /\
  ssh_print_json hex_of_bytes
    (mk_ssh role_client (replicate 16 Byte.x00) demo_cookie
       (demo_name_list ++ replicate 5 Byte.x00)) None []
    = Ok ([] ++ fmt_ssh_open ++ fmt_close).
Proof.
  assert (H2 : Forall skipped [([], 1)]).
  { constructor; [by left | constructor]. }
  split; [reflexivity|]. split; [exact H2|]. split; [discriminate|].
  split; [lia|]. split; [reflexivity|]. split; [vm_compute; reflexivity|].
  apply (ssh_print_json_without_banner hex_of_bytes sizeof_pointer_LP64
           demo_record demo_record _ [([], 1)] [(demo_banner, 1)]
           (framed Byte.x00 Byte.x00 Byte.x00 Byte.x3c Byte.x07
              (kexinit_payload demo_cookie Byte.x00 Byte.x00 Byte.x00
                 Byte.x1b
                 (demo_name_list ++ Byte.x00 :: replicate 3 Byte.x00))
              (replicate 7 Byte.x00)) 1 None []);
    [reflexivity | exact H2 | discriminate | lia | reflexivity
    | vm_compute; reflexivity].
Defined.

(** X21: a cookie whose first byte is zero is not reported.  The report of
    such a record does not depend on the other 15 bytes of the cookie nor on
    how [zprintf_raw_as_hex] renders bytes, because the cookie field is
    written only when [cookie[0]] is not zero. *)
Theorem ssh_print_json_cookie_hidden
    (raw_as_hex raw_as_hex' : list byte -> list byte) (x1 : ssh)
    (x2 : option ssh) (f ck ck' : list byte) :
  cookie x1 = Byte.x00 :: ck ->
  ssh_print_json raw_as_hex x1 x2 f
    = ssh_print_json raw_as_hex' (set_cookie x1 (Byte.x00 :: ck')) x2 f.
Proof.
  intros Hck. unfold ssh_print_json.
  cbn [set_cookie ssh_role protocol cookie host_key_algos]. rewrite Hck.
  case_decide; [|done].
  destruct (load (protocol x1) 0) as [b|]; cbn [mbind result_bind]; [|done].
  destruct (negb _); [|done].
  destruct (print_string (protocol x1)) as [p|]; cbn [mbind result_bind];
    [|done].
  reflexivity.
Qed.

Lemma ssh_print_json_cookie_hidden_witness :
  cookie (mk_ssh role_client (demo_banner ++ replicate 4 Byte.x00)
            (Byte.x00 :: replicate 15 Byte.xaa)
            (list_byte_of_string "ssh-x" ++ replicate 27 Byte.x00))
    = Byte.x00 :: replicate 15 Byte.xaa /\
  ssh_print_json hex_of_bytes
    (mk_ssh role_client (demo_banner ++ replicate 4 Byte.x00)
       (Byte.x00 :: replicate 15 Byte.xaa)
       (list_byte_of_string "ssh-x" ++ replicate 27 Byte.x00)) None []
    = ssh_print_json (fun l => l)
        (set_cookie
           (mk_ssh role_client (demo_banner ++ replicate 4 Byte.x00)
              (Byte.x00 :: replicate 15 Byte.xaa)
              (list_byte_of_string "ssh-x" ++ replicate 27 Byte.x00))
           (Byte.x00 :: replicate 15 Byte.x00)) None [].
Proof.
  split; [reflexivity|].
  apply (ssh_print_json_cookie_hidden hex_of_bytes (fun l => l) _ None []
           (replicate 15 Byte.xaa) (replicate 15 Byte.x00)).
  reflexivity.
Defined.

(** X22: the report never reads past an array of a record that a flow of
    bounded calls has produced.  From a record fresh from [ssh_init], with a
    16-byte cookie array, and wherever a data pointer has at least 6 bytes,
    after a sequence of calls whose chunks are shorter than the banner and
    the algorithm-list arrays and whose headers declare no more than the
    chunk holds, [ssh_print_json] returns, and what was in the file before
    is still at its start. *)
Theorem ssh_print_json_after_flow (raw_as_hex : list byte -> list byte)
    (sizeof_pointer : Z) (s0 s : ssh) (calls : list (list byte * Z))
    (x2 : option ssh) (f : list byte) :
  sizeof_struct_ssh_packet <= sizeof_pointer ->
  ssh_init s0 = Ok s ->
  length (cookie s0) = 16%nat -> host_key_algos s0 <> [] ->
  Forall (bounded_call sizeof_pointer s0) calls ->
  exists (s' : ssh) (out : list byte),
    ssh_update_all sizeof_pointer s calls = Ok s' /\
    ssh_print_json raw_as_hex s' x2 f = Ok (f ++ out).
Proof.
  intros Hp Hinit Hc Ha Hcalls.
  apply ssh_init_coherent in Hinit as [Hcoh Hsz]; [|done..].
  destruct (ssh_update_all_bounded _ _ _ _ Hp Hcoh Hsz Hcalls)
    as (s' & Hrun & Hcoh' & _).
  destruct (ssh_print_json_coherent raw_as_hex s' x2 f Hcoh') as [out Hout].
  by exists s', out.
Qed.

Lemma ssh_print_json_after_flow_witness :
  sizeof_struct_ssh_packet <= sizeof_pointer_LP64 /\
  ssh_init (ssh_zero 80 80) = Ok (ssh_zero 80 80) /\
  length (cookie (ssh_zero 80 80)) = 16%nat /\
  host_key_algos (ssh_zero 80 80) <> [] /\
  Forall (bounded_call sizeof_pointer_LP64 (ssh_zero 80 80))
    [(demo_banner, 1);
     (framed Byte.x00 Byte.x00 Byte.x00 Byte.x3c Byte.x07
        (kexinit_payload demo_cookie Byte.x00 Byte.x00 Byte.x00 Byte.x1b
           (demo_name_list ++ Byte.x00 :: replicate 3 Byte.x00))
        (replicate 7 Byte.x00), 1)] /\
  exists (s' : ssh) (out : list byte),
    ssh_update_all sizeof_pointer_LP64 (ssh_zero 80 80)
      [(demo_banner, 1);
       (framed Byte.x00 Byte.x00 Byte.x00 Byte.x3c Byte.x07
          (kexinit_payload demo_cookie Byte.x00 Byte.x00 Byte.x00 Byte.x1b
             (demo_name_list ++ Byte.x00 :: replicate 3 Byte.x00))
          (replicate 7 Byte.x00), 1)] = Ok s' /\
    ssh_print_json hex_of_bytes s' None (list_byte_of_string "{")
      = Ok (list_byte_of_string "{" ++ out).
Proof.
  split; [calc|]. split; [reflexivity|]. split; [reflexivity|].
  split; [discriminate|]. split; [exact demo_flow_bounded|].
  apply (ssh_print_json_after_flow hex_of_bytes sizeof_pointer_LP64
           (ssh_zero 80 80) (ssh_zero 80 80));
    [calc | reflexivity | reflexivity | discriminate
    | exact demo_flow_bounded].
Defined.

(** ** The self-test *)

(** X23: [ssh_unit_test] does not get past its first update.  Whatever the
    local record holds at entry, whatever the pointer size and the file,
    [ssh_update] is handed a null pointer with length 1 on a record fresh
    from [ssh_init], and the banner copy reads through the null pointer. *)
Theorem ssh_unit_test_null_read (raw_as_hex : list byte -> list byte)
    (sizeof_pointer : Z) (stack : ssh) (out : list byte) :
  protocol stack <> [] ->
  ssh_unit_test raw_as_hex sizeof_pointer stack out = Fault OutOfBoundsRead.
Proof.
  intros Hp. unfold ssh_unit_test.
  destruct (ssh_init stack) as [s|] eqn:Hinit.
  2:{ unfold ssh_init, store in Hinit. destruct (protocol stack); [done|].
      cbn in Hinit. done. }
  cbn [mbind result_bind].
  apply ssh_init_ok in Hinit as (Hrole & Hempty & Hlen & _).
  assert (Hup : ssh_update sizeof_pointer s NULL 1 1 = Fault OutOfBoundsRead).
  { unfold ssh_update. change (1 =? 0) with false. cbn match.
    rewrite decide_True by done. unfold load. rewrite Hempty.
    cbn [mbind result_bind]. change (byte_val Byte.x00 =? 0) with true.
    cbn match. rewrite copy_printable_string_overread; [done|constructor|..].
    - unfold NULL, sizeof. cbn. lia.
    - unfold NULL, sizeof. rewrite Nat2Z.id, Hlen. cbn [length].
      destruct (protocol stack); [done | cbn; lia].
    - unfold NULL. cbn. lia. }
  by rewrite Hup.
Qed.

Lemma ssh_unit_test_null_read_witness :
  protocol demo_record <> [] /\
  ssh_unit_test hex_of_bytes sizeof_pointer_LP64 demo_record []
    = Fault OutOfBoundsRead.
Proof.
  split; [discriminate|].
  apply ssh_unit_test_null_read. discriminate.
Defined.
